(** * New-Portifolio: the route table and the contact form

    The repository is an Angular application.  Two pieces of it carry
    behaviour: the route table of [src/app/app.routes.ts] and the contact form
    of the form validation guide ([ContactComponent] and
    [bannedWordsValidator]).  Both are configuration handed to the framework,
    so the framework functions the source calls are embedded next to it, each
    under the name it has in Angular: the matching functions of
    [@angular/router] ([defaultUrlMatcher], [match], [processSegment], the
    loop of the recognizer over absolute redirects) and the validators of
    [@angular/forms] ([Validators.required], [email], [minLength],
    [maxLength], [pattern], [compose], [mergeErrors]).

    Strings of the form are sequences of UTF-16 code units; error objects
    are finite maps from error keys to payloads; what [submit] does to the
    outside is threaded through a [World]. *)

From Stdlib Require Import String Ascii NArith.
From stdpp Require Import base option list strings gmap.

#[local] Set Warnings "-clear-no-such-hyp".
Local Open Scope string_scope.

(** ** Router *)

Module Router.

(** The lazily loaded page components named by the [loadComponent] imports. *)
Inductive Page := Inicial | Resumo | Sobre | Contato.

Inductive PathMatch := prefix | full.

(** A [Route] as the table uses it: [pathMatch] defaults to [prefix]. *)
Record Route := {
  path : string;
  pathMatch : PathMatch;
  redirectTo : option string;
  loadComponent : option Page
}.

Definition page_route (p : string) (c : Page) : Route :=
  {| path := p; pathMatch := prefix; redirectTo := None; loadComponent := Some c |}.

(** [export const routes: Routes = [...]] *)
Definition routes : list Route :=
  [ {| path := ""; pathMatch := full; redirectTo := Some "/inicio"; loadComponent := None |};
    page_route "inicio" Inicial;
    page_route "resumo" Resumo;
    page_route "sobre" Sobre;
    page_route "contato" Contato;
    {| path := "**"; pathMatch := prefix; redirectTo := Some "/inicio"; loadComponent := None |} ].

(** [s.split('/')]: the pieces between slashes, empty pieces kept. *)
Fixpoint split (s : string) : list string :=
  match s with
  | EmptyString => [""]
  | String c s' =>
      if Ascii.eqb c "/" then "" :: split s'
      else match split s' with
           | [] => [String c ""]
           | p :: ps => String c p :: ps
           end
  end.

(** The segments of a plain path such as [/sobre] or [/resumo/2024]: an
    optional leading slash, then non-empty segments separated by single
    slashes, with none of the characters [( ) ? ; # %].  On these paths it
    gives what the URL parser of the router gives; it is not that parser
    (query, fragment, matrix parameters, escapes, secondary outlets and
    empty segments are outside it) and is applied to plain paths only: the
    redirect targets of the table and the sample paths.  Statements about
    every path are made on segment lists. *)
Definition urlSegments (url : string) : list string :=
  filter (λ p, p ≠ "") (split url).

Definition partMatches (part segment : string) : bool :=
  match part with
  | String ":" _ => true
  | _ => String.eqb part segment
  end.

Fixpoint partsMatch (parts segments : list string) : bool :=
  match parts, segments with
  | [], _ => true
  | part :: parts', segment :: segments' =>
      partMatches part segment && partsMatch parts' segments'
  | _ :: _, [] => false
  end.

Definition isFull (m : PathMatch) : bool :=
  match m with full => true | prefix => false end.

(** [defaultUrlMatcher]: the consumed and the remaining segments. *)
Definition defaultUrlMatcher (route : Route) (segments : list string)
  : option (list string * list string) :=
  let parts := split (path route) in
  if (length segments <? length parts)%nat then None
  else if isFull (pathMatch route) && (length parts <? length segments)%nat then None
  else if partsMatch parts segments
       then Some (take (length parts) segments, drop (length parts) segments)
       else None.

(** [match(segmentGroup, route, segments)] *)
Definition matchRoute (route : Route) (segments : list string)
  : option (list string * list string) :=
  if String.eqb (path route) "**" then Some (segments, [])
  else if String.eqb (path route) "" then
    if isFull (pathMatch route) && negb (length segments =? 0)%nat then None
    else Some ([], segments)
  else defaultUrlMatcher route segments.

(** [matchSegmentAgainstRoute] for a route without children: the wildcard
    takes everything, any other route must leave no segment over. *)
Definition matchSegmentAgainstRoute (route : Route) (segments : list string) : bool :=
  match matchRoute route segments with
  | Some (_, []) => true
  | _ => false
  end.

Inductive Outcome :=
  | Activated (route : Route)
  | AbsoluteRedirect (target : string)
  | NoLeftoversInUrl
  | NoMatch.

Definition exhausted (segments : list string) : Outcome :=
  match segments with [] => NoLeftoversInUrl | _ => NoMatch end.

(** [processSegment] with [allowRedirects = false]: redirect entries are
    skipped. *)
Fixpoint processSegmentNoRedirect (config : list Route) (segments : list string) : Outcome :=
  match config with
  | [] => exhausted segments
  | r :: rest =>
      match redirectTo r with
      | None =>
          if matchSegmentAgainstRoute r segments then Activated r
          else processSegmentNoRedirect rest segments
      | Some _ => processSegmentNoRedirect rest segments
      end
  end.

Definition isAbsolute (target : string) : bool :=
  match target with String "/" _ => true | _ => false end.

(** [processSegment] with redirects allowed: the routes are tried in
    declaration order and the first that does not answer [NoMatch] wins.
    A relative redirect is expanded in place against the whole table
    [config], without further redirects; an absolute one restarts the
    recognition. *)
Fixpoint processSegment (config rs : list Route) (segments : list string) : Outcome :=
  match rs with
  | [] => exhausted segments
  | r :: rest =>
      match redirectTo r with
      | None =>
          if matchSegmentAgainstRoute r segments then Activated r
          else processSegment config rest segments
      | Some target =>
          match matchRoute r segments with
          | None => processSegment config rest segments
          | Some (_, remaining) =>
              if isAbsolute target then AbsoluteRedirect target
              else match processSegmentNoRedirect config (urlSegments target ++ remaining) with
                   | NoMatch => processSegment config rest segments
                   | o => o
                   end
          end
      end
  end.

Inductive Recognized :=
  | Rendered (route : Route)
  | EmptyOutlet
  | RouteNotFound
  | InfiniteRedirect.

Definition finish (o : Outcome) : Recognized :=
  match o with
  | Activated r => Rendered r
  | NoLeftoversInUrl => EmptyOutlet
  | _ => RouteNotFound
  end.

Definition MAX_ALLOWED_REDIRECTS : nat := 31.

(** The recognizer's loop over absolute redirects.  [budget] is
    [MAX_ALLOWED_REDIRECTS - absoluteRedirectCount]; once it is used up a
    development build throws, a production build follows the redirect and
    stops applying redirects.  The list returned is the chain of redirect
    targets followed. *)
Fixpoint matchUrl (ngDevMode : bool) (config : list Route) (budget : nat)
    (segments : list string) : list string * Recognized :=
  match processSegment config config segments with
  | AbsoluteRedirect target =>
      match budget with
      | S b =>
          let '(chain, res) := matchUrl ngDevMode config b (urlSegments target) in
          (target :: chain, res)
      | O =>
          if ngDevMode then ([target], InfiniteRedirect)
          else ([target], finish (processSegmentNoRedirect config (urlSegments target)))
      end
  | o => ([], finish o)
  end.

Definition recognize (ngDevMode : bool) (config : list Route) (segments : list string)
  : list string * Recognized :=
  matchUrl ngDevMode config MAX_ALLOWED_REDIRECTS segments.

(** Navigation to a plain path: the entry that ends up rendered, and its
    page. *)
Definition navigate (ngDevMode : bool) (url : string) : Recognized :=
  snd (recognize ngDevMode routes (urlSegments url)).

Definition pageOf (r : Recognized) : option Page :=
  match r with Rendered route => loadComponent route | _ => None end.




Definition inicio : Route := page_route "inicio" Inicial.
Definition wildcard : Route :=
  {| path := "**"; pathMatch := prefix; redirectTo := Some "/inicio"; loadComponent := None |}.

(** A route path that is one literal segment. *)
Definition literal (p : string) : Prop :=
  String.eqb p "**" = false ∧ String.eqb p "" = false ∧ split p = [p]
  ∧ ∀ s, partMatches p s = String.eqb p s.

(** The path under which the table declares a page. *)
Definition pathOf (p : Page) : string :=
  match p with
  | Inicial => "inicio"
  | Resumo => "resumo"
  | Sobre => "sobre"
  | Contato => "contato"
  end.

End Router.

(** ** Contact form *)

Module Forms.

(** A JavaScript string is a sequence of UTF-16 code units; [length] counts
    them, as [s.length] does. *)
Definition JsString := list N.

Definition js (s : string) : JsString := N_of_ascii <$> list_ascii_of_string s.

(** The value of a text control: [null] (after [reset()]) or a string. *)
Inductive ControlValue := null | str (s : JsString).

(** *** Regular expressions

    [RegExp.prototype.test] for the anchored patterns [/^...$/] the form
    uses, by derivatives.  Lookaheads at the start of such a pattern are
    intersections. *)

Inductive Regex :=
  | Fail
  | Eps
  | Chr (p : N → bool)
  | Seq (r1 r2 : Regex)
  | Alt (r1 r2 : Regex)
  | And (r1 r2 : Regex)
  | Star (r : Regex).

Fixpoint nullable (r : Regex) : bool :=
  match r with
  | Fail | Chr _ => false
  | Eps | Star _ => true
  | Seq r1 r2 | And r1 r2 => nullable r1 && nullable r2
  | Alt r1 r2 => nullable r1 || nullable r2
  end.

Definition seq (r1 r2 : Regex) : Regex :=
  match r1, r2 with
  | Fail, _ | _, Fail => Fail
  | Eps, r | r, Eps => r
  | _, _ => Seq r1 r2
  end.

Definition alt (r1 r2 : Regex) : Regex :=
  match r1, r2 with
  | Fail, r | r, Fail => r
  | _, _ => Alt r1 r2
  end.

Definition inter (r1 r2 : Regex) : Regex :=
  match r1, r2 with
  | Fail, _ | _, Fail => Fail
  | _, _ => And r1 r2
  end.

Fixpoint deriv (c : N) (r : Regex) : Regex :=
  match r with
  | Fail | Eps => Fail
  | Chr p => if p c then Eps else Fail
  | Seq r1 r2 =>
      alt (seq (deriv c r1) r2) (if nullable r1 then deriv c r2 else Fail)
  | Alt r1 r2 => alt (deriv c r1) (deriv c r2)
  | And r1 r2 => inter (deriv c r1) (deriv c r2)
  | Star r1 => seq (deriv c r1) (Star r1)
  end.

Definition matches (r : Regex) (s : JsString) : bool :=
  nullable (foldl (λ r c, deriv c r) r s).

Definition opt (r : Regex) : Regex := Alt Eps r.
Definition plus (r : Regex) : Regex := Seq r (Star r).

(** [r{n}] and [r{0,n}] *)
Fixpoint times (n : nat) (r : Regex) : Regex :=
  match n with O => Eps | S n' => Seq r (times n' r) end.
Fixpoint upto (n : nat) (r : Regex) : Regex :=
  match n with O => Eps | S n' => opt (Seq r (upto n' r)) end.
Definition range (m n : nat) (r : Regex) : Regex := Seq (times m r) (upto (n - m) r).

Definition chr (a : ascii) : Regex := Chr (N.eqb (N_of_ascii a)).
Fixpoint lit (s : string) : Regex :=
  match s with EmptyString => Eps | String a s' => Seq (chr a) (lit s') end.

Definition between (lo hi : ascii) (c : N) : bool :=
  (N_of_ascii lo <=? c)%N && (c <=? N_of_ascii hi)%N.
Definition oneOf (s : string) (c : N) : bool :=
  existsb (N.eqb c) (js s).

(** [\d], [a-zA-Z0-9], and [.] (anything but a line terminator) *)
Definition digit (c : N) : bool := between "0" "9" c.
Definition alnum (c : N) : bool :=
  between "a" "z" c || between "A" "Z" c || between "0" "9" c.
Definition dot (c : N) : bool :=
  negb (existsb (N.eqb c) [10; 13; 8232; 8233]%N).

Record RegExp := { source : string; regex : Regex }.

Definition test (re : RegExp) (s : JsString) : bool := matches (regex re) s.

(** *** Validators of [@angular/forms] *)

(** The payload stored under an error key: [true], the two lengths, the
    pattern and the value, or the banned word. *)
Inductive ErrorInfo :=
  | flag
  | lengths (requiredLength actualLength : nat)
  | patternInfo (requiredPattern : string) (actualValue : JsString)
  | wordInfo (word : JsString).

(** [ValidationErrors]: an object from error keys to payloads. *)
Abbreviation ValidationErrors := (gmap string ErrorInfo).

(** What a validator can read of the control it is handed. *)
Record AbstractControl := {
  value : ControlValue;
  touched : bool;
  dirty : bool;
  errors : option ValidationErrors
}.

Definition ValidatorFn : Type := AbstractControl → option ValidationErrors.

(** [isEmptyInputValue]: [value == null || value.length === 0] *)
Definition isEmptyInputValue (v : ControlValue) : bool :=
  match v with
  | null => true
  | str s => (length s =? 0)%nat
  end.

Module Validators.

Definition required : ValidatorFn := λ control,
  if isEmptyInputValue (value control) then Some {[ "required" := flag ]} else None.

(** The local part and the labels of the domain of [EMAIL_REGEXP]. *)
Definition atext (c : N) : bool := alnum c || oneOf "!#$%&'*+/=?^_`{|}~-" c.
Definition label : Regex :=
  Seq (Chr alnum)
      (opt (Seq (upto 61 (Chr (λ c, alnum c || oneOf "-" c))) (Chr alnum))).

Definition EMAIL_REGEXP : RegExp :=
  {| source := "/^(?=.{1,254}$)(?=.{1,64}@)[a-zA-Z0-9!#$%&'*+/=?^_`{|}~-]+(?:\.[a-zA-Z0-9!#$%&'*+/=?^_`{|}~-]+)*@[a-zA-Z0-9](?:[a-zA-Z0-9-]{0,61}[a-zA-Z0-9])?(?:\.[a-zA-Z0-9](?:[a-zA-Z0-9-]{0,61}[a-zA-Z0-9])?)*$/";
     regex :=
       And (range 1 254 (Chr dot))
      (And (Seq (range 1 64 (Chr dot)) (Seq (chr "@") (Star (Chr (λ _, true)))))
           (Seq (plus (Chr atext))
           (Seq (Star (Seq (chr ".") (plus (Chr atext))))
           (Seq (chr "@")
           (Seq label (Star (Seq (chr ".") label))))))) |}.

Definition email : ValidatorFn := λ control,
  if isEmptyInputValue (value control) then None
  else match value control with
       | str s => if test EMAIL_REGEXP s then None else Some {[ "email" := flag ]}
       | null => None
       end.

(** Empty values are not checked, so that optional controls stay valid. *)
Definition minLength (minLength : nat) : ValidatorFn := λ control,
  match value control with
  | null => None
  | str s =>
      if (length s =? 0)%nat then None
      else if (length s <? minLength)%nat
           then Some {[ "minlength" := lengths minLength (length s) ]}
           else None
  end.

Definition maxLength (maxLength : nat) : ValidatorFn := λ control,
  match value control with
  | null => None
  | str s =>
      if (maxLength <? length s)%nat
      then Some {[ "maxlength" := lengths maxLength (length s) ]}
      else None
  end.

Definition pattern (re : RegExp) : ValidatorFn := λ control,
  if isEmptyInputValue (value control) then None
  else match value control with
       | str s => if test re s then None
                  else Some {[ "pattern" := patternInfo (source re) s ]}
       | null => None
       end.

(** [mergeErrors]: [res = {...res, ...errors}] for each non-null result, and
    [null] when no key is left. *)
Definition mergeErrors (arrayOfErrors : list (option ValidationErrors))
  : option ValidationErrors :=
  let res := foldl (λ res errors,
                      match errors with
                      | Some e => e ∪ res
                      | None => res
                      end) (∅ : ValidationErrors) arrayOfErrors in
  if (size res =? 0)%nat then None else Some res.

Definition executeValidators (control : AbstractControl) (validators : list ValidatorFn)
  : list (option ValidationErrors) :=
  (λ validator, validator control) <$> validators.

(** [Validators.compose]: every validator runs, the results are merged. *)
Definition compose (validators : list ValidatorFn) : ValidatorFn := λ control,
  mergeErrors (executeValidators control validators).

End Validators.

(** The error set of a control: the keys of its [errors]. *)
Definition errorSet (errors : option ValidationErrors) : gset string :=
  from_option dom ∅ errors.

(** *** Controls and groups *)

Record FormControl := {
  state : AbstractControl;
  validator : list ValidatorFn
}.

(** [updateValueAndValidity]: [errors] is recomputed from the validators. *)
Definition updateValueAndValidity (c : FormControl) : FormControl :=
  {| state := {| value := value (state c); touched := touched (state c);
                 dirty := dirty (state c);
                 errors := Validators.compose (validator c) (state c) |};
     validator := validator c |}.

(** [new FormControl(value, validators)] *)
Definition newFormControl (v : ControlValue) (validators : list ValidatorFn) : FormControl :=
  updateValueAndValidity
    {| state := {| value := v; touched := false; dirty := false; errors := None |};
       validator := validators |}.

Definition setValue (v : ControlValue) (c : FormControl) : FormControl :=
  updateValueAndValidity
    {| state := {| value := v; touched := touched (state c); dirty := dirty (state c);
                   errors := errors (state c) |};
       validator := validator c |}.

Definition markAsTouched (c : FormControl) : FormControl :=
  {| state := {| value := value (state c); touched := true; dirty := dirty (state c);
                 errors := errors (state c) |};
     validator := validator c |}.

Definition markAsDirty (c : FormControl) : FormControl :=
  {| state := {| value := value (state c); touched := touched (state c); dirty := true;
                 errors := errors (state c) |};
     validator := validator c |}.

(** [control.invalid]: the status is [INVALID], that is, [errors] is set. *)
Definition controlInvalid (c : FormControl) : bool :=
  if errors (state c) is Some _ then true else false.

(** A [FormGroup] without validators of its own: the controls by name, in
    the order of the object literal. *)
Record FormGroup := { controls : list (string * FormControl) }.

Definition get (name : string) (g : FormGroup) : option FormControl :=
  snd <$> find (λ nc, String.eqb (fst nc) name) (controls g).

(** [group.invalid]: some control is invalid.  Angular stores the status and
    recomputes it whenever a child changes; it is read here from the
    children. *)
Definition invalid (g : FormGroup) : bool :=
  existsb (λ nc, controlInvalid (snd nc)) (controls g).

(** [group.value]: the value of each control under its name. *)
Definition groupValue (g : FormGroup) : list (string * ControlValue) :=
  (λ nc, (fst nc, value (state (snd nc)))) <$> controls g.

Definition setControlValue (name : string) (v : ControlValue) (g : FormGroup) : FormGroup :=
  {| controls := (λ nc, if String.eqb (fst nc) name
                        then (fst nc, setValue v (snd nc)) else nc) <$> controls g |}.

(** [fb.group({name: [value, validators], ...})] *)
Definition group (config : list (string * (JsString * list ValidatorFn))) : FormGroup :=
  {| controls := (λ e, (fst e, newFormControl (str (fst (snd e))) (snd (snd e)))) <$> config |}.

(** *** ContactComponent *)

Definition phonePattern : RegExp :=
  {| source := "/^(\+55|0)?(\d{2})?(\d{4,5})-?(\d{4})$/";
     regex := Seq (opt (Alt (lit "+55") (lit "0")))
             (Seq (opt (times 2 (Chr digit)))
             (Seq (range 4 5 (Chr digit))
             (Seq (opt (chr "-"))
                  (times 4 (Chr digit))))) |}.

Definition emailValidators : list ValidatorFn :=
  [Validators.required; Validators.email].
Definition nameValidators : list ValidatorFn :=
  [Validators.required; Validators.minLength 3; Validators.maxLength 50].
Definition messageValidators : list ValidatorFn :=
  [Validators.required; Validators.minLength 10; Validators.maxLength 1000].
Definition phoneValidators : list ValidatorFn :=
  [Validators.pattern phonePattern].

Record ContactComponent := { contactForm : FormGroup }.

(** [constructor(private fb: FormBuilder)] *)
Definition newContactComponent : ContactComponent :=
  {| contactForm := group
       [ ("email", ([], emailValidators));
         ("name", ([], nameValidators));
         ("message", ([], messageValidators));
         ("phone", ([], phoneValidators)) ] |}.

(** What [submit] can touch outside the component: the console. *)
Inductive ConsoleEntry := warn (message : string).
Record World := { console : list ConsoleEntry }.

(** How a call ends for its caller: [submit(): void] returns [undefined],
    or an exception is thrown. *)
Inductive Completion := returned | thrown (error : string).

(** [submit(): void] *)
Definition submit (this : ContactComponent) (w : World) : Completion * World :=
  if invalid (contactForm this) then
    (returned, {| console := console w ++ [warn "Formulário inválido"] |})
  else
    let formData := groupValue (contactForm this) in
    (returned, w).

(** The component after the user has typed the four values. *)
Definition fill (email name message phone : string) (this : ContactComponent)
  : ContactComponent :=
  {| contactForm :=
       setControlValue "phone" (str (js phone))
         (setControlValue "message" (str (js message))
           (setControlValue "name" (str (js name))
             (setControlValue "email" (str (js email)) (contactForm this)))) |}.

(** *** String methods *)

(** [s.includes(w)]: [w] occurs in [s]. *)
Fixpoint startsWith (s w : JsString) : bool :=
  match w, s with
  | [], _ => true
  | c :: w', d :: s' => N.eqb c d && startsWith s' w'
  | _ :: _, [] => false
  end.

Fixpoint includes (s w : JsString) : bool :=
  startsWith s w ||
  match s with
  | [] => false
  | _ :: s' => includes s' w
  end.

(** [s.trim()]: white space and line terminators are removed at both ends. *)
Definition isWhiteSpace (c : N) : bool :=
  existsb (N.eqb c) [9; 10; 11; 12; 13; 32; 160; 5760; 8232; 8233; 8239; 8287; 12288; 65279]%N
  || ((8192 <=? c)%N && (c <=? 8202)%N).

Fixpoint trimStart (s : JsString) : JsString :=
  match s with
  | c :: s' => if isWhiteSpace c then trimStart s' else s
  | [] => []
  end.

Definition trim (s : JsString) : JsString :=
  reverse (trimStart (reverse (trimStart s))).

(** [toLowerCase] on the letters A to Z; other code units are kept. *)
Definition toLowerCaseAscii (s : JsString) : JsString :=
  (λ c, if between "A" "Z" c then (c + 32)%N else c) <$> s.

(** *** The custom validator

    [String.prototype.toLowerCase] follows the Unicode case mapping; the
    validator is embedded over any such function. *)
Section BannedWords.

Variable toLowerCase : JsString → JsString.

(** The loop [for (const word of words)]: the first word found in [text]. *)
Fixpoint firstBanned (text : JsString) (words : list JsString) : option JsString :=
  match words with
  | [] => None
  | word :: rest =>
      if includes text (toLowerCase word) then Some word
      else firstBanned text rest
  end.

Definition bannedWordsValidator (words : list JsString) : ValidatorFn := λ control,
  match value control with
  | null => None
  | str [] => None
  | str s =>
      let text := toLowerCase s in
      match firstBanned text words with
      | Some word => Some {[ "bannedWord" := wordInfo word ]}
      | None => None
      end
  end.

(** The usage example: [message: ['', [Validators.required,
    bannedWordsValidator(['spam', 'curse'])]]]. *)
Definition bannedMessageValidators : list ValidatorFn :=
  [Validators.required; bannedWordsValidator [js "spam"; js "curse"]].

End BannedWords.

(** [validate(v)] for a field: the errors its validators leave on a control
    whose value is [v]. *)
Definition validate (validators : list ValidatorFn) (v : ControlValue)
  : option ValidationErrors :=
  errors (state (setValue v (newFormControl (str []) validators))).

(** *** Notions the statements use *)

(** A validator that leaves no key but [key]. *)
Definition only (key : string) (f : ValidatorFn) : Prop :=
  ∀ control, errorSet (f control) ⊆ {[ key ]}.

(** A validator whose answer depends on the value of the control alone. *)
Definition valueOnly (f : ValidatorFn) : Prop :=
  ∀ c1 c2 : AbstractControl, value c1 = value c2 → f c1 = f c2.

(** The validator lists the source configures: the four fields of the
    contact form and the message field of the usage example. *)
Definition fields (toLowerCase : JsString → JsString) : list (list ValidatorFn) :=
  [emailValidators; nameValidators; messageValidators; phoneValidators;
   bannedMessageValidators toLowerCase].

(** [w] occurs in [s] as a substring. *)
Definition occursIn (w s : JsString) : Prop := ∃ before after, s = (before ++ w ++ after)%list.

(** *** The language of a pattern *)

Inductive star (L : JsString → Prop) : JsString → Prop :=
  | star_nil : star L []
  | star_app (s1 s2 : JsString) : L s1 → star L s2 → star L (s1 ++ s2)%list.

Fixpoint lang (r : Regex) (s : JsString) : Prop :=
  match r with
  | Fail => False
  | Eps => s = []
  | Chr p => ∃ c, s = [c] ∧ p c = true
  | Seq r1 r2 => ∃ s1 s2, s = (s1 ++ s2)%list ∧ lang r1 s1 ∧ lang r2 s2
  | Alt r1 r2 => lang r1 s ∨ lang r2 s
  | And r1 r2 => lang r1 s ∧ lang r2 s
  | Star r1 => star (lang r1) s
  end.

(** *** SafeDisplayComponent *)

(** [s.replace(/[<>]/g, '')]: every code unit of the class is dropped. *)
Definition removeChars (chars : string) (s : JsString) : JsString :=
  List.filter (λ c, negb (oneOf chars c)) s.

(** Matching under the [i] flag against a pattern of ASCII characters: both
    code units are canonicalized, which maps [a]-[z] to [A]-[Z] and no code
    unit from outside ASCII into it. *)
Definition canonicalize (c : N) : N :=
  if between "a" "z" c then (c - 32)%N else c.

Fixpoint startsWithIgnoreCase (s w : JsString) : bool :=
  match w, s with
  | [], _ => true
  | c :: w', d :: s' =>
      N.eqb (canonicalize c) (canonicalize d) && startsWithIgnoreCase s' w'
  | _ :: _, [] => false
  end.

(** [s.replace(/w/gi, '')] for a non-empty literal [w]: one pass from the
    left; where [w] matches, its code units are skipped and the scan goes on
    behind them.  [skip] counts the code units of a match still to drop. *)
Fixpoint removeAllIgnoreCase (w : JsString) (skip : nat) (s : JsString) : JsString :=
  match s with
  | [] => []
  | c :: s' =>
      match skip with
      | S k => removeAllIgnoreCase w k s'
      | O =>
          if startsWithIgnoreCase s w
          then removeAllIgnoreCase w (length w - 1) s'
          else c :: removeAllIgnoreCase w 0 s'
      end
  end.

(** [sanitizeInput(input: string): string] *)
Definition sanitizeInput (input : JsString) : JsString :=
  trim (removeAllIgnoreCase (js "javascript:") 0 (removeChars "<>" input)).

(** *** The getters and the template of the contact form *)

(** [get email() { return this.contactForm.get('email'); }] and the like *)
Definition email (this : ContactComponent) : option FormControl :=
  get "email" (contactForm this).
Definition name (this : ContactComponent) : option FormControl :=
  get "name" (contactForm this).
Definition message (this : ContactComponent) : option FormControl :=
  get "message" (contactForm this).
Definition phone (this : ContactComponent) : option FormControl :=
  get "phone" (contactForm this).

(** [control.hasError(key)]: [errors] holds something under [key]. *)
Definition hasError (key : string) (c : FormControl) : bool :=
  match errors (state c) with
  | Some e => if e !! key is Some _ then true else false
  | None => false
  end.

(** An error block of the template:
    [<div *ngIf="c?.invalid && c?.touched">] around one paragraph
    [<p *ngIf="c?.hasError(key)">] per key.  [None]: the block is not
    rendered; [Some lines]: it is, with these paragraphs. *)
Definition errorBlock (paragraphs : list (string * string)) (c : option FormControl)
  : option (list string) :=
  match c with
  | Some c =>
      if controlInvalid c && touched (state c)
      then Some (snd <$> List.filter (λ kp, hasError (fst kp) c) paragraphs)
      else None
  | None => None
  end.

Definition emailParagraphs : list (string * string) :=
  [("required", "Email é obrigatório"); ("email", "Email inválido")].
Definition nameParagraphs : list (string * string) :=
  [("required", "Nome é obrigatório"); ("minlength", "Mínimo 3 caracteres");
   ("maxlength", "Máximo 50 caracteres")].
Definition messageParagraphs : list (string * string) :=
  [("required", "Mensagem é obrigatória"); ("minlength", "Mínimo 10 caracteres")].

(** [<button type="submit" [disabled]="contactForm.invalid">] *)
Definition submitDisabled (this : ContactComponent) : bool :=
  invalid (contactForm this).

(** [{{ message?.value?.length || 0 }}] *)
Definition charCount (this : ContactComponent) : nat :=
  match message this with
  | Some c => match value (state c) with str s => length s | null => 0 end
  | None => 0
  end.

(** The user touches a field (blur). *)
Definition touchControl (name : string) (g : FormGroup) : FormGroup :=
  {| controls := (λ nc, if String.eqb (fst nc) name
                        then (fst nc, markAsTouched (snd nc)) else nc) <$> controls g |}.

(** The component after the four controls have been given values. *)
Definition fillWith (email name message phone : ControlValue) (this : ContactComponent)
  : ContactComponent :=
  {| contactForm :=
       setControlValue "phone" phone
         (setControlValue "message" message
           (setControlValue "name" name
             (setControlValue "email" email (contactForm this)))) |}.

(** A component with the four controls of the constructor and their
    validators, in whatever state. *)
Definition shaped (this : ContactComponent) : Prop :=
  (λ nc, (fst nc, validator (snd nc))) <$> controls (contactForm this)
  = [("email", emailValidators); ("name", nameValidators);
     ("message", messageValidators); ("phone", phoneValidators)].

Definition lengthWithin (lo hi : nat) (v : ControlValue) : Prop :=
  ∃ s, v = str s ∧ (lo ≤ length s)%nat ∧ (length s ≤ hi)%nat.

(** The error set of a field with [required], [minLength(lo)] and
    [maxLength(hi)], by the length of the value. *)
Definition lengthErrors (lo hi : nat) (v : ControlValue) : gset string :=
  match v with
  | null => {[ "required" ]}
  | str s =>
      if (length s =? 0)%nat then {[ "required" ]}
      else if (length s <? lo)%nat then {[ "minlength" ]}
      else if (hi <? length s)%nat then {[ "maxlength" ]}
      else ∅
  end.

(** An accepted value of the email and of the phone field. *)
Definition emailAccepted (v : ControlValue) : Prop :=
  ∃ s, v = str s ∧ s ≠ [] ∧ test Validators.EMAIL_REGEXP s = true.
Definition phoneAccepted (v : ControlValue) : Prop :=
  v = null ∨ v = str [] ∨ ∃ s, v = str s ∧ test phonePattern s = true.

(** The four values a valid contact form holds. *)
Definition accepted (email name message phone : ControlValue) : Prop :=
  emailAccepted email ∧ lengthWithin 3 50 name ∧ lengthWithin 10 1000 message
  ∧ phoneAccepted phone.

(** What the error block of a length-checked field shows once the field has
    been touched, by the length of the value; [over] is what it shows above
    the upper bound. *)
Definition lengthBlock (lo hi : nat) (required minlength : string) (over : list string)
    (v : ControlValue) : option (list string) :=
  match v with
  | null => Some [required]
  | str s =>
      if (length s =? 0)%nat then Some [required]
      else if (length s <? lo)%nat then Some [minlength]
      else if (hi <? length s)%nat then Some over
      else None
  end.

(** The user leaves the four fields one after the other. *)
Definition touchAll (this : ContactComponent) : ContactComponent :=
  {| contactForm :=
       touchControl "phone"
         (touchControl "message"
           (touchControl "name"
             (touchControl "email" (contactForm this)))) |}.

(** What the error block of the email field shows once the field has been
    touched. *)
Definition emailBlock (v : ControlValue) : option (list string) :=
  if isEmptyInputValue v then Some ["Email é obrigatório"]
  else if (if v is str s then test Validators.EMAIL_REGEXP s else false) then None
  else Some ["Email inválido"].

(** *** The contact form of the security guide

    [SEGURANCA.md] shows a second [ContactComponent]: no name field, no
    upper bound on the message, a wider pattern for the phone, and a
    [submit()] that does something for a valid form only. *)
Module Security.

Definition phonePattern : RegExp :=
  {| source := "/^[0-9\-\+\s\(\)]*$/";
     regex := Star (Chr (λ c, digit c || oneOf "-+()" c || isWhiteSpace c)) |}.

Definition emailValidators : list ValidatorFn :=
  [Validators.required; Validators.email].
Definition messageValidators : list ValidatorFn :=
  [Validators.required; Validators.minLength 10].
Definition phoneValidators : list ValidatorFn :=
  [Validators.pattern phonePattern].

Definition newContactComponent : ContactComponent :=
  {| contactForm := group
       [ ("email", ([], emailValidators));
         ("message", ([], messageValidators));
         ("phone", ([], phoneValidators)) ] |}.

(** [submit()]: [contactForm.valid] is the negation of [invalid] for a form
    that is neither disabled nor pending. *)
Definition submit (this : ContactComponent) (w : World) : Completion * World :=
  if negb (invalid (contactForm this)) then
    let data := groupValue (contactForm this) in
    (returned, w)
  else (returned, w).

Definition fillWith (email message phone : ControlValue) (this : ContactComponent)
  : ContactComponent :=
  {| contactForm :=
       setControlValue "phone" phone
         (setControlValue "message" message
           (setControlValue "email" email (contactForm this))) |}.

End Security.

End Forms.

(** ** The route table: resolution *)

Module RouterSpec.
Import Router.

(** *** The table on the paths of the application *)

Example navigate_sobre : navigate true "/sobre" = Rendered (page_route "sobre" Sobre).
Proof. reflexivity. Qed.

Example navigate_contato : pageOf (navigate true "/contato") = Some Contato.
Proof. reflexivity. Qed.

Example recognize_root :
  recognize true routes (urlSegments "/") = (["/inicio"], Rendered inicio).
Proof. reflexivity. Qed.

Example recognize_nested :
  recognize false routes (urlSegments "/resumo/2024") = (["/inicio"], Rendered inicio).
Proof. reflexivity. Qed.

(** A table whose redirects chase each other: the production build stops
    applying redirects once the allowance is used up, the development build
    throws. *)
Example redirect_cycle :
  let cyclic :=
    [ {| path := "a"; pathMatch := prefix; redirectTo := Some "/b"; loadComponent := None |};
      {| path := "b"; pathMatch := prefix; redirectTo := Some "/a"; loadComponent := None |} ] in
  snd (recognize false cyclic ["a"]) = RouteNotFound
  ∧ snd (recognize true cyclic ["a"]) = InfiniteRedirect
  ∧ length (fst (recognize false cyclic ["a"])) = 32%nat.
Proof. by vm_compute. Qed.

(** *** What one scan of the table answers *)

Lemma literal_single (p : string) (c : Page) (s : string) :
  literal p → matchSegmentAgainstRoute (page_route p c) [s] = String.eqb p s.
Proof.
  intros (Hw & He & Hs & Hp).
  unfold matchSegmentAgainstRoute, matchRoute, defaultUrlMatcher.
  cbn [path pathMatch page_route isFull andb]. rewrite Hw, He, Hs.
  cbn [length Nat.ltb Nat.leb partsMatch take drop]. rewrite Hp.
  by destruct (String.eqb p s).
Qed.

Lemma literal_many (p : string) (c : Page) (s s' : string) (rest : list string) :
  literal p → matchSegmentAgainstRoute (page_route p c) (s :: s' :: rest) = false.
Proof.
  intros (Hw & He & Hs & Hp).
  unfold matchSegmentAgainstRoute, matchRoute, defaultUrlMatcher.
  cbn [path pathMatch page_route isFull andb]. rewrite Hw, He, Hs.
  cbn [length Nat.ltb Nat.leb partsMatch take drop].
  by destruct (partMatches p s).
Qed.

Lemma root_nonempty (s : string) (rest : list string) :
  matchRoute {| path := ""; pathMatch := full; redirectTo := Some "/inicio";
                loadComponent := None |} (s :: rest) = None.
Proof. reflexivity. Qed.

Lemma scan_one (s : string) :
  processSegment routes routes [s] = AbsoluteRedirect "/inicio"
  ∨ ∃ r, processSegment routes routes [s] = Activated r
         ∧ r ∈ routes ∧ redirectTo r = None ∧ is_Some (loadComponent r).
Proof.
  unfold routes. cbn [processSegment redirectTo page_route].
  rewrite root_nonempty.
  rewrite !literal_single by (done || by intros [|[]]).
  destruct (String.eqb "inicio" s); [right; eexists; split; [reflexivity|]; cbn; set_solver|].
  destruct (String.eqb "resumo" s); [right; eexists; split; [reflexivity|]; cbn; set_solver|].
  destruct (String.eqb "sobre" s); [right; eexists; split; [reflexivity|]; cbn; set_solver|].
  destruct (String.eqb "contato" s); [right; eexists; split; [reflexivity|]; cbn; set_solver|].
  by left.
Qed.

Lemma scan_routes (segments : list string) :
  processSegment routes routes segments = AbsoluteRedirect "/inicio"
  ∨ ∃ r, processSegment routes routes segments = Activated r
         ∧ r ∈ routes ∧ redirectTo r = None ∧ is_Some (loadComponent r).
Proof.
  destruct segments as [|s [|s' rest]]; [by left | apply scan_one |].
  left. unfold routes. cbn [processSegment redirectTo page_route].
  by rewrite root_nonempty, !literal_many by (done || by intros [|[]]).
Qed.

Lemma scan_inicio : processSegment routes routes (urlSegments "/inicio") = Activated inicio.
Proof. reflexivity. Qed.

Lemma recognize_routes (dev : bool) (segments : list string) :
  recognize dev routes segments = (["/inicio"], Rendered inicio)
  ∨ ∃ r, recognize dev routes segments = ([], Rendered r)
         ∧ r ∈ routes ∧ redirectTo r = None ∧ is_Some (loadComponent r).
Proof.
  unfold recognize, MAX_ALLOWED_REDIRECTS.
  destruct (scan_routes segments) as [H | (r & H & Hr)].
  - left. cbn [matchUrl]. rewrite H. cbn [matchUrl]. by rewrite scan_inicio.
  - right. exists r. split; [|done]. cbn [matchUrl]. by rewrite H.
Qed.

(** *** Redirect entries are never the rendered entry, whatever the table *)

Lemma noRedirect_activated (config : list Route) (segments : list string) (r : Route) :
  processSegmentNoRedirect config segments = Activated r → redirectTo r = None.
Proof.
  induction config as [|r0 rest IH]; cbn.
  - by destruct segments.
  - destruct (redirectTo r0) eqn:E; [done|].
    destruct (matchSegmentAgainstRoute r0 segments); [|done].
    by intros [= <-].
Qed.

Lemma processSegment_activated (config rs : list Route) (segments : list string) (r : Route) :
  processSegment config rs segments = Activated r → redirectTo r = None.
Proof.
  induction rs as [|r0 rest IH]; cbn.
  - by destruct segments.
  - destruct (redirectTo r0) as [target|] eqn:E.
    + destruct (matchRoute r0 segments) as [[consumed remaining]|]; [|done].
      destruct (isAbsolute target); [done|].
      destruct (processSegmentNoRedirect _ _) eqn:E'; try done.
      intros [= <-]. by eapply noRedirect_activated.
    + destruct (matchSegmentAgainstRoute r0 segments); [|done].
      by intros [= <-].
Qed.

Lemma finish_rendered (o : Outcome) (r : Route) :
  finish o = Rendered r → o = Activated r.
Proof. destruct o; cbn; congruence. Qed.

Lemma matchUrl_rendered (dev : bool) (config : list Route) (budget : nat)
    (segments : list string) (r : Route) :
  snd (matchUrl dev config budget segments) = Rendered r → redirectTo r = None.
Proof.
  revert segments. induction budget as [|b IH]; intros segments; cbn [matchUrl].
  - destruct (processSegment config config segments) eqn:E; cbn; try done.
    + intros [= <-]. by eapply processSegment_activated.
    + destruct dev; cbn; [done|]. intros H%finish_rendered.
      by eapply noRedirect_activated.
  - destruct (processSegment config config segments) eqn:E; cbn; try done.
    + intros [= <-]. by eapply processSegment_activated.
    + specialize (IH (urlSegments target)).
      by destruct (matchUrl dev config b (urlSegments target)).
Qed.

(** *** The entry that matches first *)



Lemma navigate_inicio (dev : bool) : navigate dev "/inicio" = Rendered inicio.
Proof. reflexivity. Qed.

(** *** Claims on the route table *)



(** C5.  Resolution over the table follows at most one redirect and so
    cannot cycle; the root path redirects to [/inicio]; an entry with a
    redirect target is never the rendered entry (for any table) and names no
    page module; a matched redirect is resolved again from its target path,
    which resolves without a further redirect. *)
Theorem redirect_one_level (dev : bool) (segments : list string) :
  (length (fst (recognize dev routes segments)) ≤ 1)%nat
  ∧ fst (recognize dev routes []) = ["/inicio"]
  ∧ (∀ config r, snd (recognize dev config segments) = Rendered r → redirectTo r = None)
  ∧ (∀ r target, r ∈ routes → redirectTo r = Some target →
       target = "/inicio" ∧ loadComponent r = None)
  ∧ (∀ target, processSegment routes routes segments = AbsoluteRedirect target →
       recognize dev routes segments
       = (target :: fst (recognize dev routes (urlSegments target)),
          snd (recognize dev routes (urlSegments target)))
       ∧ fst (recognize dev routes (urlSegments target)) = []).
Proof.
  split; [|split; [reflexivity|split; [|split]]].
  - destruct (recognize_routes dev segments) as [-> | (r & -> & _)]; cbn; lia.
  - intros config r. apply matchUrl_rendered.
  - intros r target Hin Hto. unfold routes in Hin.
    repeat (apply elem_of_cons in Hin as [-> | Hin]; [by cbn in Hto; simplify_eq|]).
    by apply elem_of_nil in Hin.
  - intros target Hscan.
    destruct (scan_routes segments) as [H | (r & H & _)]; rewrite H in Hscan; [|done].
    injection Hscan as <-. split; [|reflexivity].
    unfold recognize, MAX_ALLOWED_REDIRECTS. cbn [matchUrl].
    rewrite H. cbn [matchUrl]. by rewrite scan_inicio.
Qed.

Lemma redirect_one_level_witness :
  processSegment routes routes ["nada"] = AbsoluteRedirect "/inicio"
  ∧ recognize true routes ["nada"] = (["/inicio"], Rendered inicio)
  ∧ loadComponent wildcard = None.
Proof.
  split; [reflexivity|]. split.
  - apply (proj1 (proj2 (proj2 (proj2 (proj2 (redirect_one_level true ["nada"])))) "/inicio" eq_refl)).
  - apply (proj1 (proj2 (proj2 (proj2 (redirect_one_level true ["nada"])))) wildcard "/inicio").
    + unfold routes, wildcard. set_solver.
    + reflexivity.
Defined.

(** C6.  The root path (no segment, full match) resolves to the page that
    [/inicio] resolves to. *)
Theorem root_same_as_home (dev : bool) :
  pageOf (navigate dev "") = pageOf (navigate dev "/inicio")
  ∧ pageOf (navigate dev "/") = pageOf (navigate dev "/inicio")
  ∧ navigate dev "" = Rendered inicio
  ∧ pageOf (navigate dev "/inicio") = Some Inicial.
Proof. by destruct dev. Qed.

(** *** Which path shows which page *)

Lemma scan_page (p : Page) :
  processSegment routes routes [pathOf p] = Activated (page_route (pathOf p) p).
Proof. by destruct p. Qed.

Lemma scan_other (segments : list string) :
  (∀ p, segments ≠ [pathOf p]) →
  processSegment routes routes segments = AbsoluteRedirect "/inicio".
Proof.
  intros Hno. destruct segments as [|s [|s' rest]]; [done| |].
  - unfold routes. cbn [processSegment redirectTo page_route].
    rewrite root_nonempty, !literal_single by (done || by intros [|[]]).
    assert (∀ p, String.eqb (pathOf p) s = false) as Hne.
    { intros p. apply String.eqb_neq. intros <-. by apply (Hno p). }
    pose proof (Hne Inicial) as H1. pose proof (Hne Resumo) as H2.
    pose proof (Hne Sobre) as H3. pose proof (Hne Contato) as H4.
    cbn [pathOf] in H1, H2, H3, H4. by rewrite H1, H2, H3, H4.
  - unfold routes. cbn [processSegment redirectTo page_route].
    by rewrite root_nonempty, !literal_many by (done || by intros [|[]]).
Qed.

(** X12.  The table shows a page without redirect exactly on the one-segment
    path declared for it, compared code unit by code unit; every other path,
    the empty one and longer ones included, is redirected once and shows the
    page of [inicio].  Development and production builds resolve alike. *)
Theorem page_by_path (dev : bool) (segments : list string) :
  (∀ p, segments = [pathOf p] →
     recognize dev routes segments = ([], Rendered (page_route (pathOf p) p)))
  ∧ ((∀ p, segments ≠ [pathOf p]) →
       recognize dev routes segments = (["/inicio"], Rendered inicio))
  ∧ recognize true routes segments = recognize false routes segments.
Proof.
  split; [|split].
  - intros p ->. unfold recognize, MAX_ALLOWED_REDIRECTS. cbn [matchUrl].
    by rewrite scan_page.
  - intros H%scan_other. unfold recognize, MAX_ALLOWED_REDIRECTS. cbn [matchUrl].
    rewrite H. cbn [matchUrl]. by rewrite scan_inicio.
  - unfold recognize, MAX_ALLOWED_REDIRECTS. cbn [matchUrl].
    destruct (scan_routes segments) as [H | (r & H & _)]; rewrite H; [|done].
    cbn [matchUrl]. by rewrite scan_inicio.
Qed.

Lemma page_by_path_witness :
  recognize true routes ["contato"] = ([], Rendered (page_route "contato" Contato))
  ∧ recognize false routes ["Contato"] = (["/inicio"], Rendered inicio).
Proof.
  split.
  - exact (proj1 (page_by_path true ["contato"]) Contato eq_refl).
  - apply (proj1 (proj2 (page_by_path false ["Contato"]))). by intros [].
Defined.

End RouterSpec.

(** ** The contact form: validation and submission *)

Module FormsSpec.
Import Forms.

(** *** The patterns on sample values *)

Example phone_samples :
  test phonePattern (js "+5511912345678") = true
  ∧ test phonePattern (js "1234-5678") = true
  ∧ test phonePattern (js "12345") = false
  ∧ test phonePattern (js "1234--5678") = false.
Proof. by vm_compute. Qed.

Example email_samples :
  Validators.email {| value := str (js "not-an-email"); touched := true; dirty := true;
                      errors := None |} = Some {[ "email" := flag ]}
  ∧ validate emailValidators (str (js "a@b.com")) = None
  ∧ test Validators.EMAIL_REGEXP (js "a..b@c.d") = false
  ∧ test Validators.EMAIL_REGEXP (js "a@-b.com") = false.
Proof. repeat split; by vm_compute. Qed.

Example trim_sample : trim (js "  a b  ") = js "a b".
Proof. reflexivity. Qed.

(** *** Merged errors *)

Lemma merge_fold_dom (l : list (option ValidationErrors)) (acc : ValidationErrors) :
  dom (foldl (λ res errors, match errors with
                            | Some e => e ∪ res
                            | None => res
                            end) acc l)
  = dom acc ∪ ⋃ (errorSet <$> l).
Proof.
  revert acc. induction l as [|[e|] l IH]; intros acc; cbn [foldl fmap list_fmap].
  - rewrite union_list_nil. set_solver.
  - rewrite IH, dom_union_L, union_list_cons. cbn. set_solver.
  - rewrite IH, union_list_cons. cbn. set_solver.
Qed.

Lemma errorSet_mergeErrors (l : list (option ValidationErrors)) :
  errorSet (Validators.mergeErrors l) = ⋃ (errorSet <$> l).
Proof.
  unfold Validators.mergeErrors.
  pose proof (merge_fold_dom l ∅) as Hdom. rewrite dom_empty_L in Hdom.
  destruct (Nat.eqb_spec (size (foldl (λ res errors, match errors with
                            | Some e => e ∪ res
                            | None => res
                            end) (∅ : ValidationErrors) l)) 0) as [E|E]; cbn.
  - apply map_size_empty_iff in E. rewrite E, dom_empty_L in Hdom. set_solver.
  - rewrite Hdom. set_solver.
Qed.

Lemma mergeErrors_None (l : list (option ValidationErrors)) :
  Validators.mergeErrors l = None ↔ errorSet (Validators.mergeErrors l) = ∅.
Proof.
  split; [by intros ->|].
  unfold Validators.mergeErrors.
  destruct (Nat.eqb_spec (size (foldl (λ res errors, match errors with
                            | Some e => e ∪ res
                            | None => res
                            end) (∅ : ValidationErrors) l)) 0) as [E|E]; [done|].
  cbn. intros H%dom_empty_iff_L. by rewrite H, map_size_empty in E.
Qed.

Lemma errorSet_compose (validators : list ValidatorFn) (control : AbstractControl) :
  errorSet (Validators.compose validators control)
  = ⋃ ((λ f : ValidatorFn, errorSet (f control)) <$> validators).
Proof.
  unfold Validators.compose, Validators.executeValidators.
  by rewrite errorSet_mergeErrors, <- list_fmap_compose.
Qed.

(** *** The keys each validator can leave *)

Lemma required_empty (control : AbstractControl) :
  errorSet (Validators.required control)
  = if isEmptyInputValue (value control) then {[ "required" ]} else ∅.
Proof.
  unfold Validators.required. destruct (isEmptyInputValue _); cbn; [|done].
  by rewrite dom_singleton_L.
Qed.

Ltac keys :=
  unfold errorSet; cbn [from_option]; rewrite ?dom_singleton_L; set_solver.

Lemma email_only : only "email" Validators.email.
Proof.
  intros c. unfold Validators.email.
  destruct (isEmptyInputValue (value c)); [keys|].
  destruct (value c) as [|s]; [keys|].
  destruct (test Validators.EMAIL_REGEXP s); keys.
Qed.

Lemma minLength_only (n : nat) : only "minlength" (Validators.minLength n).
Proof.
  intros c. unfold Validators.minLength.
  destruct (value c) as [|s]; [keys|].
  destruct (length s =? 0)%nat; [keys|].
  destruct (length s <? n)%nat; keys.
Qed.

Lemma maxLength_only (n : nat) : only "maxlength" (Validators.maxLength n).
Proof.
  intros c. unfold Validators.maxLength.
  destruct (value c) as [|s]; [keys|].
  destruct (n <? length s)%nat; keys.
Qed.

Lemma pattern_only (re : RegExp) : only "pattern" (Validators.pattern re).
Proof.
  intros c. unfold Validators.pattern.
  destruct (isEmptyInputValue (value c)); [keys|].
  destruct (value c) as [|s]; [keys|].
  destruct (test re s); keys.
Qed.

Lemma validate_unfold (validators : list ValidatorFn) (v : ControlValue) :
  ∃ control, value control = v
             ∧ validate validators v = Validators.compose validators control.
Proof. by eexists {| value := v |}. Qed.

Lemma isEmptyInputValue_spec (v : ControlValue) :
  isEmptyInputValue v = true ↔ v = null ∨ v = str [].
Proof.
  destruct v as [|[|c s]]; cbn; split; try done; try by (intros [|]).
  - by left.
  - by right.
Qed.

(** The error set a list of validators leaves, as the union of what each
    leaves. *)
Ltac by_keys control :=
  rewrite errorSet_compose;
  unfold emailValidators, nameValidators, messageValidators, phoneValidators;
  cbn [fmap list_fmap];
  rewrite ?union_list_cons, union_list_nil, ?required_empty;
  pose proof (email_only control);
  pose proof (pattern_only phonePattern control);
  pose proof (minLength_only 3 control); pose proof (maxLength_only 50 control);
  pose proof (minLength_only 10 control); pose proof (maxLength_only 1000 control).

Lemma required_in_field (validators : list ValidatorFn) (v : ControlValue) :
  validators ∈ [emailValidators; nameValidators; messageValidators] →
  "required" ∈ errorSet (validate validators v) ↔ v = null ∨ v = str [].
Proof.
  intros Hin. rewrite <- isEmptyInputValue_spec.
  destruct (validate_unfold validators v) as (control & <- & ->).
  repeat (apply elem_of_cons in Hin as [-> | Hin]); [| | |by apply elem_of_nil in Hin];
    by_keys control; destruct (isEmptyInputValue (value control)); set_solver.
Qed.

(** *** Claims on the validators *)

(** C4, as the code has it.  The [required] rule puts [required] into the
    error set exactly when the value is [null] or the empty string; the
    value is not trimmed.  This holds for the rule alone and for the three
    fields of the contact form that carry it. *)
Theorem required_iff_empty (control : AbstractControl) (v : ControlValue) :
  ("required" ∈ errorSet (Validators.required control)
     ↔ value control = null ∨ value control = str [])
  ∧ Forall (λ validators,
              "required" ∈ errorSet (validate validators v) ↔ v = null ∨ v = str [])
      [emailValidators; nameValidators; messageValidators].
Proof.
  split.
  - rewrite <- isEmptyInputValue_spec, required_empty.
    destruct (isEmptyInputValue (value control)); set_solver.
  - apply Forall_forall. intros validators Hin. by apply required_in_field.
Qed.

Lemma required_iff_empty_witness :
  "required" ∈ errorSet (validate messageValidators (str [])).
Proof.
  pose proof (proj2 (required_iff_empty
                       {| value := null; touched := false; dirty := false; errors := None |}
                       (str []))) as H.
  apply Forall_cons_1 in H as [_ H]. apply Forall_cons_1 in H as [_ H].
  apply Forall_cons_1 in H as [H _]. apply H. by right.
Defined.

(** C4, as the specification words it, fails: a value of one space is empty
    after trimming and gets no [required] error. *)
Lemma required_blank_not_empty :
  trim (js " ") = []
  ∧ ("required" ∉ errorSet (Validators.required
                              {| value := str (js " "); touched := false; dirty := false;
                                 errors := None |}))
  ∧ ("required" ∉ errorSet (validate messageValidators (str (js " ")))).
Proof.
  split; [reflexivity|]. split.
  - rewrite required_empty. cbn. set_solver.
  - rewrite required_in_field by set_solver. by intros [|].
Qed.

(** C7.  The message field: the empty string gets [required]; a string of
    five code units gets [minlength]; a string of fifty gets no error. *)
Theorem message_scenarios (s5 s50 : JsString) :
  "required" ∈ errorSet (validate messageValidators (str []))
  ∧ (length s5 = 5 → "minlength" ∈ errorSet (validate messageValidators (str s5)))
  ∧ (length s50 = 50 →
       validate messageValidators (str s50) = None
       ∧ errorSet (validate messageValidators (str s50)) = ∅).
Proof.
  split; [|split].
  - apply required_in_field; [set_solver | by right].
  - intros Hlen. destruct (validate_unfold messageValidators (str s5)) as (c & Hv & ->).
    rewrite errorSet_compose. cbn [fmap list_fmap messageValidators].
    rewrite !union_list_cons. unfold Validators.minLength at 1. rewrite Hv, Hlen. cbn.
    rewrite dom_singleton_L. set_solver.
  - intros Hlen. destruct (validate_unfold messageValidators (str s50)) as (c & Hv & ->).
    assert (errorSet (Validators.compose messageValidators c) = ∅) as Hempty.
    { rewrite errorSet_compose. cbn [fmap list_fmap messageValidators].
      rewrite !union_list_cons, union_list_nil.
      unfold Validators.required, Validators.minLength, Validators.maxLength.
      rewrite Hv. cbn [isEmptyInputValue]. rewrite Hlen. cbn. set_solver. }
    split; [|done]. by apply mergeErrors_None.
Qed.

Lemma message_scenarios_witness :
  "minlength" ∈ errorSet (validate messageValidators (str (js "hello")))
  ∧ validate messageValidators
      (str (js "01234567890123456789012345678901234567890123456789")) = None.
Proof.
  pose proof (message_scenarios (js "hello")
                (js "01234567890123456789012345678901234567890123456789"))
    as (_ & H5 & H50).
  split; [by apply H5 | by apply H50].
Defined.

(** *** Validators read the value only *)

Lemma required_valueOnly : valueOnly Validators.required.
Proof. intros c1 c2 H. unfold Validators.required. by rewrite H. Qed.

Lemma email_valueOnly : valueOnly Validators.email.
Proof. intros c1 c2 H. unfold Validators.email. by rewrite H. Qed.

Lemma minLength_valueOnly (n : nat) : valueOnly (Validators.minLength n).
Proof. intros c1 c2 H. unfold Validators.minLength. by rewrite H. Qed.

Lemma maxLength_valueOnly (n : nat) : valueOnly (Validators.maxLength n).
Proof. intros c1 c2 H. unfold Validators.maxLength. by rewrite H. Qed.

Lemma pattern_valueOnly (re : RegExp) : valueOnly (Validators.pattern re).
Proof. intros c1 c2 H. unfold Validators.pattern. by rewrite H. Qed.

Lemma bannedWords_valueOnly (toLowerCase : JsString → JsString) (words : list JsString) :
  valueOnly (bannedWordsValidator toLowerCase words).
Proof. intros c1 c2 H. unfold bannedWordsValidator. by rewrite H. Qed.

Lemma compose_valueOnly (validators : list ValidatorFn) :
  Forall valueOnly validators → valueOnly (Validators.compose validators).
Proof.
  intros Hall c1 c2 H. unfold Validators.compose, Validators.executeValidators.
  f_equal. apply Forall_fmap_ext. eapply Forall_impl; [exact Hall|].
  intros f Hf. by apply Hf.
Qed.

Lemma fields_valueOnly (toLowerCase : JsString → JsString) (validators : list ValidatorFn) :
  validators ∈ fields toLowerCase → Forall valueOnly validators.
Proof.
  intros Hin. unfold fields in Hin.
  repeat (apply elem_of_cons in Hin as [-> | Hin]); [| | | | |by apply elem_of_nil in Hin];
    repeat constructor;
    auto using required_valueOnly, email_valueOnly, minLength_valueOnly,
      maxLength_valueOnly, pattern_valueOnly, bannedWords_valueOnly.
Qed.

(** C8.  For each configured field, the errors stored after a value is set
    depend on the value and the validators alone: two controls with the same
    validators end with the same errors whatever their flags and earlier
    errors were, and these are [validate] of the value.  For any list of
    validators, the error set is the same for every order of the list. *)
Theorem validate_pure_unordered (toLowerCase : JsString → JsString) :
  (∀ validators (c1 c2 : FormControl) v,
     validators ∈ fields toLowerCase →
     validator c1 = validators → validator c2 = validators →
     errors (state (setValue v c1)) = errors (state (setValue v c2))
     ∧ errors (state (setValue v c1)) = validate validators v)
  ∧ (∀ (validators validators' : list ValidatorFn) (control : AbstractControl),
       validators ≡ₚ validators' →
       errorSet (Validators.compose validators control)
       = errorSet (Validators.compose validators' control)).
Proof.
  split.
  - intros validators c1 c2 v Hin H1 H2.
    pose proof (compose_valueOnly validators (fields_valueOnly _ _ Hin)) as Hpure.
    unfold validate, setValue, updateValueAndValidity. cbn [state errors validator value].
    rewrite H1, H2. split; by apply Hpure.
  - intros validators validators' control Hperm. rewrite !errorSet_compose.
    apply union_list_permutation_proper_L. by apply fmap_Permutation.
Qed.

Lemma validate_pure_unordered_witness :
  errors (state (setValue (str (js "oi")) (newFormControl (str []) messageValidators)))
  = errors (state (setValue (str (js "oi"))
                     (markAsDirty (markAsTouched
                        (newFormControl (str (js "uma mensagem longa")) messageValidators)))))
  ∧ errorSet (Validators.compose [Validators.required; Validators.minLength 10]
                (state (newFormControl (str (js "oi")) [])))
    = errorSet (Validators.compose [Validators.minLength 10; Validators.required]
                  (state (newFormControl (str (js "oi")) []))).
Proof.
  split.
  - apply (proj1 (validate_pure_unordered toLowerCaseAscii) messageValidators);
      [unfold fields; set_solver | reflexivity | reflexivity].
  - apply (proj2 (validate_pure_unordered toLowerCaseAscii)). apply Permutation_swap.
Defined.

(** *** Substring search *)

Lemma startsWith_spec (s w : JsString) :
  startsWith s w = true ↔ ∃ after, s = (w ++ after)%list.
Proof.
  revert s. induction w as [|c w IH]; intros s.
  - destruct s; cbn; split; eauto.
  - destruct s as [|d s]; cbn; [split; [done | by intros [? [=]]]|].
    rewrite andb_true_iff, N.eqb_eq, IH. split.
    + intros [-> [after ->]]. by exists after.
    + intros [after [= -> ->]]. eauto.
Qed.

Lemma includes_spec (s w : JsString) : includes s w = true ↔ occursIn w s.
Proof.
  induction s as [|d s IH]; cbn [includes]; rewrite orb_true_iff, startsWith_spec.
  - split.
    + intros [[after ->] | [=]]. by exists [], after.
    + intros (before & after & H). left.
      destruct before; [by exists after|done].
  - rewrite IH. split.
    + intros [[after ->] | (before & after & ->)].
      * by exists [], after.
      * by exists (d :: before), after.
    + intros ([|d' before] & after & H).
      * left. by exists after.
      * right. injection H as -> ->. by exists before, after.
Qed.

Lemma firstBanned_spec (toLowerCase : JsString → JsString) (text : JsString)
    (words : list JsString) :
  match firstBanned toLowerCase text words with
  | Some word =>
      ∃ before after, words = (before ++ word :: after)%list
        ∧ occursIn (toLowerCase word) text
        ∧ ∀ u, u ∈ before → ¬ occursIn (toLowerCase u) text
  | None => ∀ u, u ∈ words → ¬ occursIn (toLowerCase u) text
  end.
Proof.
  induction words as [|w words IH]; cbn [firstBanned].
  - intros u Hu. by apply elem_of_nil in Hu.
  - destruct (includes text (toLowerCase w)) eqn:E.
    + exists [], words. split; [done|]. split; [by apply includes_spec|].
      intros u Hu. by apply elem_of_nil in Hu.
    + assert (¬ occursIn (toLowerCase w) text) as Hw
        by (rewrite <- includes_spec; congruence).
      destruct (firstBanned toLowerCase text words) as [word|].
      * destruct IH as (before & after & -> & Hocc & Hbefore).
        exists (w :: before), after. split; [done|]. split; [done|].
        intros u [-> | Hu]%elem_of_cons; auto.
      * intros u [-> | Hu]%elem_of_cons; auto.
Qed.

(** C10.  The banned-words validator answers for every control: no error
    for [null] and for the empty string; for a non-empty string an error
    exactly when the lowercased value contains the lowercased form of one
    of the words, and then the error is [bannedWord] with the first word of
    the list that does. *)
Theorem bannedWords_first_match (toLowerCase : JsString → JsString)
    (words : list JsString) (control : AbstractControl) :
  (value control = null ∨ value control = str [] →
     bannedWordsValidator toLowerCase words control = None)
  ∧ (∀ s, value control = str s → s ≠ [] →
       (is_Some (bannedWordsValidator toLowerCase words control)
          ↔ ∃ w, w ∈ words ∧ occursIn (toLowerCase w) (toLowerCase s))
       ∧ ∀ e, bannedWordsValidator toLowerCase words control = Some e →
           ∃ before word after,
             words = (before ++ word :: after)%list
             ∧ e = {[ "bannedWord" := wordInfo word ]}
             ∧ occursIn (toLowerCase word) (toLowerCase s)
             ∧ ∀ u, u ∈ before → ¬ occursIn (toLowerCase u) (toLowerCase s)).
Proof.
  unfold bannedWordsValidator. split.
  - by intros [-> | ->].
  - intros s -> Hs. destruct s as [|c s]; [done|].
    pose proof (firstBanned_spec toLowerCase (toLowerCase (c :: s)) words) as H.
    cbv zeta. destruct (firstBanned toLowerCase (toLowerCase (c :: s)) words) as [word|].
    + destruct H as (before & after & -> & Hocc & Hbefore). split.
      * split; [|by eauto]. intros _. exists word. split; [set_solver|done].
      * intros e [= <-]. by exists before, word, after.
    + split; [|done]. split; [by intros [? [=]]|].
      intros (w & Hin & Hocc). by destruct (H w Hin).
Qed.

Lemma bannedWords_first_match_witness :
  bannedWordsValidator toLowerCaseAscii [js "spam"; js "curse"; js "SPA"]
    {| value := str (js "No SPAM here"); touched := true; dirty := true; errors := None |}
  = Some {[ "bannedWord" := wordInfo (js "spam") ]}
  ∧ bannedWordsValidator toLowerCaseAscii [js "spam"]
      {| value := str []; touched := false; dirty := false; errors := None |} = None.
Proof.
  split.
  - pose proof (proj2 (bannedWords_first_match toLowerCaseAscii
                         [js "spam"; js "curse"; js "SPA"]
                         {| value := str (js "No SPAM here"); touched := true;
                            dirty := true; errors := None |})
                  (js "No SPAM here") eq_refl ltac:(done)) as [[_ Hsome] Hfirst].
    destruct Hsome as [e He].
    { exists (js "spam"). split; [set_solver|]. by exists (js "no "), (js " here"). }
    rewrite He. destruct (Hfirst e He) as (before & word & after & Hw & -> & Hocc & Hb).
    destruct before as [|u before].
    + by injection Hw as <- _.
    + injection Hw as <- _. destruct (Hb (js "spam")); [set_solver|].
      by exists (js "no "), (js " here").
  - apply (proj1 (bannedWords_first_match toLowerCaseAscii [js "spam"]
                    {| value := str []; touched := false; dirty := false; errors := None |})).
    by right.
Defined.

(** *** Submission *)

Lemma invalid_of_errors (g : FormGroup) :
  Exists (λ nc, errorSet (errors (state nc.2)) ≠ ∅) (controls g) → invalid g = true.
Proof.
  unfold invalid. induction 1 as [nc l H | nc l _ IH]; cbn [existsb].
  - unfold controlInvalid. destruct (errors (state nc.2)); [done|]. by cbn in H.
  - by rewrite IH, orb_true_r.
Qed.

Lemma submit_valid (this : ContactComponent) (w : World) :
  invalid (contactForm this) = false → submit this w = (returned, w).
Proof. intros H. unfold submit. by rewrite H. Qed.

Lemma new_component_invalid :
  Exists (λ nc, errorSet (errors (state nc.2)) ≠ ∅)
    (controls (contactForm newContactComponent)).
Proof.
  apply Exists_cons_hd. cbn [snd].
  change (errors (state (newFormControl (str []) emailValidators)))
    with (validate emailValidators (str [])).
  assert ("required" ∈ errorSet (validate emailValidators (str []))) as Hin
    by (apply required_in_field; [set_solver | by right]).
  set_solver.
Qed.

(** C1, as the code has it.  When some field has a non-empty error set,
    [submit()] returns normally, [undefined] as on every call, and the only
    thing it does is to log one console warning: nothing is handed to
    anybody and nothing is thrown. *)
Theorem submit_invalid_warns (this : ContactComponent) (w : World) :
  Exists (λ nc, errorSet (errors (state nc.2)) ≠ ∅) (controls (contactForm this)) →
  submit this w = (returned, {| console := console w ++ [warn "Formulário inválido"] |}).
Proof. intros H%invalid_of_errors. unfold submit. by rewrite H. Qed.

Lemma submit_invalid_warns_witness :
  submit newContactComponent {| console := [] |}
  = (returned, {| console := [warn "Formulário inválido"] |}).
Proof.
  exact (submit_invalid_warns newContactComponent {| console := [] |} new_component_invalid).
Defined.

(** C1, as the specification words it, fails: the caller of [submit()] gets
    from a form with errors exactly what it gets from a form without, so no
    rejection is signalled to it. *)
Lemma submit_rejection_unsignalled :
  Exists (λ nc, errorSet (errors (state nc.2)) ≠ ∅)
    (controls (contactForm newContactComponent))
  ∧ invalid (contactForm (fill "a@b.com" "Ana" "uma mensagem" "" newContactComponent)) = false
  ∧ fst (submit newContactComponent {| console := [] |})
    = fst (submit (fill "a@b.com" "Ana" "uma mensagem" "" newContactComponent)
             {| console := [] |}).
Proof. split; [apply new_component_invalid|]. split; reflexivity. Qed.

(** C3, at a form without errors: [submit()] reads the value of the form
    and returns; the world is left as it was, so the values are handed to
    nobody. *)
Theorem submit_valid_hands_nothing :
  invalid (contactForm (fill "a@b.com" "Ana" "uma mensagem" "" newContactComponent)) = false
  ∧ Forall (λ nc, errors (state nc.2) = None)
      (controls (contactForm (fill "a@b.com" "Ana" "uma mensagem" "" newContactComponent)))
  ∧ groupValue (contactForm (fill "a@b.com" "Ana" "uma mensagem" "" newContactComponent))
    = [("email", str (js "a@b.com")); ("name", str (js "Ana"));
       ("message", str (js "uma mensagem")); ("phone", str [])]
  ∧ submit (fill "a@b.com" "Ana" "uma mensagem" "" newContactComponent) {| console := [] |}
    = (returned, {| console := [] |}).
Proof.
  split; [reflexivity|]. split; [|split; reflexivity].
  repeat (apply Forall_cons_2; [vm_compute; reflexivity|]). apply Forall_nil_2.
Qed.

(** *** The matcher decides the language of a pattern *)

Lemma nullable_spec (r : Regex) : nullable r = true ↔ lang r [].
Proof.
  induction r as [| |p|r1 IH1 r2 IH2|r1 IH1 r2 IH2|r1 IH1 r2 IH2|r IH]; cbn.
  - done.
  - done.
  - split; [done | by intros (c & [=] & _)].
  - rewrite andb_true_iff, IH1, IH2. split.
    + intros [H1 H2]. by exists [], [].
    + intros (s1 & s2 & H & H1 & H2). symmetry in H.
      apply app_eq_nil in H as [-> ->]. done.
  - by rewrite orb_true_iff, IH1, IH2.
  - by rewrite andb_true_iff, IH1, IH2.
  - split; [constructor | done].
Qed.

Lemma lang_seq (r1 r2 : Regex) (s : JsString) :
  lang (seq r1 r2) s ↔ lang (Seq r1 r2) s.
Proof.
  destruct r1, r2; cbn; first
    [ done
    | by (split; [done | intros (? & ? & ? & ? & ?)])
    | by (split; [intros H; by exists [], s | by intros (s1 & s2 & -> & -> & H)])
    | by (split; [intros H; exists s, []; by rewrite app_nil_r
                 | intros (s1 & s2 & -> & H & ->); by rewrite app_nil_r]) ].
Qed.

Lemma lang_alt (r1 r2 : Regex) (s : JsString) :
  lang (alt r1 r2) s ↔ lang r1 s ∨ lang r2 s.
Proof. destruct r1, r2; cbn; tauto. Qed.

Lemma lang_inter (r1 r2 : Regex) (s : JsString) :
  lang (inter r1 r2) s ↔ lang r1 s ∧ lang r2 s.
Proof. destruct r1, r2; cbn; tauto. Qed.

Lemma star_cons_inv (L : JsString → Prop) (c : N) (s : JsString) :
  star L (c :: s) → ∃ s1 s2, s = (s1 ++ s2)%list ∧ L (c :: s1) ∧ star L s2.
Proof.
  intros H. remember (c :: s) as t eqn:Et. revert c s Et.
  induction H as [|s1 s2 H1 H2 IH]; intros c s Et; [done|].
  destruct s1 as [|d s1]; cbn in Et.
  - by apply IH.
  - injection Et as -> <-. by exists s1, s2.
Qed.

Lemma deriv_spec (c : N) (r : Regex) (s : JsString) :
  lang (deriv c r) s ↔ lang r (c :: s).
Proof.
  revert s.
  induction r as [| |p|r1 IH1 r2 IH2|r1 IH1 r2 IH2|r1 IH1 r2 IH2|r IH];
    intros s; cbn [deriv].
  - done.
  - done.
  - cbn. destruct (p c) eqn:E; cbn.
    + split; [intros ->; by exists c | intros (c' & Heq & _); by simplify_eq].
    + split; [done | intros (c' & Heq & H); simplify_eq; congruence].
  - rewrite lang_alt, lang_seq. cbn [lang]. split.
    + intros [(s1 & s2 & -> & H1 & H2) | H].
      * exists (c :: s1), s2. by rewrite <- IH1.
      * destruct (nullable r1) eqn:E; [|done].
        exists [], (c :: s). rewrite <- nullable_spec, <- IH2. done.
    + intros ([|d s1] & s2 & Hs & H1 & H2); cbn in Hs.
      * right. subst s2. apply nullable_spec in H1 as ->. by apply IH2.
      * injection Hs as <- ->. left. exists s1, s2. by rewrite IH1.
  - rewrite lang_alt. cbn [lang]. by rewrite IH1, IH2.
  - rewrite lang_inter. cbn [lang]. by rewrite IH1, IH2.
  - rewrite lang_seq. cbn [lang]. split.
    + intros (s1 & s2 & -> & H1 & H2). apply IH in H1.
      by apply (star_app _ (c :: s1) s2).
    + intros (s1 & s2 & -> & H1 & H2)%star_cons_inv.
      exists s1, s2. by rewrite IH.
Qed.

Lemma matches_spec (r : Regex) (s : JsString) : matches r s = true ↔ lang r s.
Proof.
  unfold matches. revert r. induction s as [|c s IH]; intros r; cbn [foldl].
  - apply nullable_spec.
  - by rewrite IH, deriv_spec.
Qed.

Lemma lang_times_chr (n : nat) (p : N → bool) (s : JsString) :
  lang (times n (Chr p)) s ↔ length s = n ∧ Forall (λ c, p c = true) s.
Proof.
  revert s. induction n as [|n IH]; intros s; cbn [times lang].
  - split; [by intros -> | intros [H%nil_length_inv _]; done].
  - split.
    + intros (s1 & s2 & -> & (c & -> & Hc) & [Hlen Hall]%IH).
      cbn. split; [by rewrite Hlen | by constructor].
    + intros [Hlen Hall]. destruct s as [|c s]; [done|].
      apply Forall_cons_1 in Hall as [Hc Hall].
      exists [c], s. split; [done|]. split; [by exists c|].
      apply IH. split; [by injection Hlen | done].
Qed.

Lemma lang_lit (a : string) (s : JsString) : lang (lit a) s ↔ s = js a.
Proof.
  revert s. induction a as [|c a IH]; intros s; cbn [lit lang]; [done|].
  split.
  - intros (s1 & s2 & -> & (d & -> & Hd%N.eqb_eq) & ->%IH). by subst d.
  - intros ->. exists [N_of_ascii c], (js a). split; [done|].
    split; [|by apply IH]. exists (N_of_ascii c). by rewrite N.eqb_refl.
Qed.

Lemma lang_opt (r : Regex) (s : JsString) : lang (opt r) s ↔ s = [] ∨ lang r s.
Proof. done. Qed.

(** The parts of a telephone number the pattern of the contact form takes:
    country or trunk prefix, area code, number, dash, last four digits. *)
Lemma phone_parts (s : JsString) :
  test phonePattern s = true ↔
  ∃ pre area number dash last,
    s = (pre ++ area ++ number ++ dash ++ last)%list
    ∧ (pre = [] ∨ pre = js "+55" ∨ pre = js "0")
    ∧ (area = [] ∨ length area = 2 ∧ Forall (λ c, digit c = true) area)
    ∧ ((length number = 4 ∨ length number = 5) ∧ Forall (λ c, digit c = true) number)
    ∧ (dash = [] ∨ dash = js "-")
    ∧ (length last = 4 ∧ Forall (λ c, digit c = true) last).
Proof.
  unfold test. rewrite matches_spec. cbn [phonePattern regex].
  change (lang (Seq ?a ?b) s) with (∃ s1 s2, s = (s1 ++ s2)%list ∧ lang a s1 ∧ lang b s2).
  split.
  - intros (pre & r1 & -> & Hpre & area & r2 & -> & Harea & number & r3 & -> & Hnum
            & dash & last & -> & Hdash & Hlast).
    exists pre, area, number, dash, last. split; [done|].
    rewrite lang_opt in Hpre, Harea, Hdash. cbn [lang] in Hpre.
    rewrite !lang_lit in Hpre. rewrite lang_times_chr in Harea, Hlast.
    repeat split; try tauto.
    + destruct Hnum as (n4 & n1 & -> & [H4 Hd4]%lang_times_chr & Hn1).
      cbn in Hn1. destruct Hn1 as [-> | (d & e & -> & (c & -> & Hc) & ->)].
      * rewrite app_nil_r. by left.
      * right. rewrite length_app, H4. done.
    + destruct Hnum as (n4 & n1 & -> & [H4 Hd4]%lang_times_chr & Hn1).
      cbn in Hn1. destruct Hn1 as [-> | (d & e & -> & (c & -> & Hc) & ->)].
      * by rewrite app_nil_r.
      * apply Forall_app. split; [done|]. by repeat constructor.
    + destruct Hdash as [-> | (c & -> & Hc%N.eqb_eq)]; [by left|]. right. by subst c.
  - intros (pre & area & number & dash & last & -> & Hpre & Harea & [Hlen Hnum] & Hdash & Hlast).
    exists pre, (area ++ number ++ dash ++ last)%list. split; [done|]. split.
    { apply lang_opt. cbn [lang]. rewrite !lang_lit. tauto. }
    exists area, (number ++ dash ++ last)%list. split; [done|]. split.
    { apply lang_opt. rewrite lang_times_chr. tauto. }
    exists number, (dash ++ last)%list. split; [done|]. split.
    { exists (take 4 number), (drop 4 number). rewrite take_drop. split; [done|].
      split.
      - apply lang_times_chr. split; [rewrite length_take; lia|].
        by apply Forall_take.
      - cbn. destruct Hlen as [Hlen | Hlen].
        + left. apply nil_length_inv. rewrite length_drop. lia.
        + right. destruct (drop 4 number) as [|c [|c' l]] eqn:E.
          * apply (f_equal length) in E. rewrite length_drop in E. cbn in E. lia.
          * exists [c], []. split; [done|]. split; [|done]. exists c. split; [done|].
            assert (Forall (λ c, digit c = true) (drop 4 number)) as Hd by by apply Forall_drop.
            rewrite E in Hd. by apply Forall_cons_1 in Hd as [Hd _].
          * apply (f_equal length) in E. rewrite length_drop in E. cbn in E. lia. }
    exists dash, last. split; [done|]. split.
    { apply lang_opt. destruct Hdash as [-> | ->]; [by left|]. right.
      exists (N_of_ascii "-"). by rewrite N.eqb_refl. }
    by apply lang_times_chr.
Qed.

(** *** The fields of the contact form, value by value *)

Lemma phone_alphabet (s : JsString) :
  test phonePattern s = true →
  Forall (λ c, digit c = true ∨ c = N_of_ascii "+" ∨ c = N_of_ascii "-") s.
Proof.
  intros (pre & area & number & dash & last & -> & Hpre & Harea & [_ Hnum]
          & Hdash & [_ Hd])%phone_parts.
  rewrite !Forall_app. repeat split.
  - destruct Hpre as [-> | [-> | ->]];
      repeat (apply Forall_cons_2; [vm_compute; auto|]); apply Forall_nil_2.
  - destruct Harea as [-> | [_ Ha]]; [constructor|].
    eapply Forall_impl; [exact Ha|]. auto.
  - eapply Forall_impl; [exact Hnum|]. auto.
  - destruct Hdash as [-> | ->];
      repeat (apply Forall_cons_2; [vm_compute; auto|]); apply Forall_nil_2.
  - eapply Forall_impl; [exact Hd|]. auto.
Qed.

(** X1.  A telephone number the pattern accepts has 8 to 15 code units,
    all of them digits, [+] or [-], and ends in four digits. *)
Theorem phone_accepted_shape (s : JsString) :
  test phonePattern s = true →
  (8 ≤ length s)%nat ∧ (length s ≤ 15)%nat
  ∧ Forall (λ c, digit c = true ∨ c = N_of_ascii "+" ∨ c = N_of_ascii "-") s
  ∧ Forall (λ c, digit c = true) (drop (length s - 4) s).
Proof.
  intros Hs. pose proof (phone_alphabet s Hs) as Halpha.
  apply phone_parts in Hs
    as (pre & area & number & dash & last & -> & Hpre & Harea & [Hlen Hnum]
        & Hdash & [Hlast Hd]).
  assert (length pre ≤ 3)%nat by (by destruct Hpre as [-> | [-> | ->]]; cbn; lia).
  assert (length area ≤ 2)%nat by (destruct Harea as [-> | [-> _]]; cbn; lia).
  assert (length dash ≤ 1)%nat by (by destruct Hdash as [-> | ->]; cbn; lia).
  split; [rewrite !length_app; lia|]. split; [rewrite !length_app; lia|].
  split; [done|].
  replace (pre ++ area ++ number ++ dash ++ last)%list
    with ((pre ++ area ++ number ++ dash) ++ last)%list
    by (by rewrite <- !(assoc_L app)).
  rewrite length_app, Hlast, Nat.add_sub. by rewrite drop_app_length.
Qed.

Lemma phone_accepted_shape_witness :
  (8 ≤ length (js "+5511912345678"))%nat ∧ (length (js "+5511912345678") ≤ 15)%nat
  ∧ Forall (λ c, digit c = true ∨ c = N_of_ascii "+" ∨ c = N_of_ascii "-")
      (js "+5511912345678")
  ∧ Forall (λ c, digit c = true)
      (drop (length (js "+5511912345678") - 4) (js "+5511912345678")).
Proof. apply phone_accepted_shape. by vm_compute. Defined.

Lemma length_field (lo hi : nat) (v : ControlValue) :
  (1 ≤ lo)%nat → (lo ≤ hi)%nat →
  errorSet (validate [Validators.required; Validators.minLength lo; Validators.maxLength hi] v)
  = lengthErrors lo hi v.
Proof.
  intros Hlo Hhi.
  destruct (validate_unfold
              [Validators.required; Validators.minLength lo; Validators.maxLength hi] v)
    as (control & Hv & ->).
  rewrite errorSet_compose. cbn [fmap list_fmap].
  rewrite !union_list_cons, union_list_nil, required_empty.
  unfold Validators.minLength, Validators.maxLength, lengthErrors. rewrite Hv.
  destruct v as [|s]; cbn [isEmptyInputValue]; [keys|].
  destruct (Nat.eqb_spec (length s) 0) as [E|E].
  - rewrite E. destruct (Nat.ltb_spec hi 0); [lia|]. keys.
  - destruct (Nat.ltb_spec (length s) lo), (Nat.ltb_spec hi (length s));
      try lia; keys.
Qed.

Lemma lengthErrors_empty (lo hi : nat) (v : ControlValue) :
  (1 ≤ lo)%nat → lengthErrors lo hi v = ∅ ↔ lengthWithin lo hi v.
Proof.
  intros Hlo. unfold lengthErrors, lengthWithin. destruct v as [|s].
  - split; [set_solver | by intros (s & [=] & _)].
  - destruct (Nat.eqb_spec (length s) 0) as [E|E].
    { split; [set_solver | intros (s' & [= <-] & ? & ?); lia]. }
    destruct (Nat.ltb_spec (length s) lo).
    { split; [set_solver | intros (s' & [= <-] & ? & ?); lia]. }
    destruct (Nat.ltb_spec hi (length s)).
    { split; [set_solver | intros (s' & [= <-] & ? & ?); lia]. }
    split; [intros _; by exists s | done].
Qed.

Lemma validate_None (validators : list ValidatorFn) (v : ControlValue) :
  validate validators v = None ↔ errorSet (validate validators v) = ∅.
Proof.
  destruct (validate_unfold validators v) as (control & _ & ->).
  apply mergeErrors_None.
Qed.

Lemma length_field_valid (lo hi : nat) (v : ControlValue) :
  (1 ≤ lo)%nat → (lo ≤ hi)%nat →
  validate [Validators.required; Validators.minLength lo; Validators.maxLength hi] v = None
  ↔ lengthWithin lo hi v.
Proof.
  intros Hlo Hhi. rewrite validate_None, length_field by done.
  by apply lengthErrors_empty.
Qed.

Lemma email_errors (v : ControlValue) :
  errorSet (validate emailValidators v)
  = (if isEmptyInputValue v then {[ "required" ]}
     else if (if v is str s then test Validators.EMAIL_REGEXP s else false)
          then ∅ else {[ "email" ]}).
Proof.
  destruct (validate_unfold emailValidators v) as (control & Hv & ->).
  rewrite errorSet_compose. unfold emailValidators. cbn [fmap list_fmap].
  rewrite !union_list_cons, union_list_nil, required_empty.
  unfold Validators.email. rewrite Hv.
  destruct v as [|[|c s]]; cbn [isEmptyInputValue length Nat.eqb]; [keys|keys|].
  destruct (test Validators.EMAIL_REGEXP (c :: s)); keys.
Qed.

Lemma phone_errors (v : ControlValue) :
  errorSet (validate phoneValidators v)
  = (if isEmptyInputValue v then ∅
     else if (if v is str s then test phonePattern s else false)
          then ∅ else {[ "pattern" ]}).
Proof.
  destruct (validate_unfold phoneValidators v) as (control & Hv & ->).
  rewrite errorSet_compose. unfold phoneValidators. cbn [fmap list_fmap].
  rewrite !union_list_cons, union_list_nil.
  unfold Validators.pattern. rewrite Hv.
  destruct v as [|[|c s]]; cbn [isEmptyInputValue length Nat.eqb]; [keys|keys|].
  destruct (test phonePattern (c :: s)); keys.
Qed.

Lemma email_valid (v : ControlValue) :
  validate emailValidators v = None ↔ emailAccepted v.
Proof.
  rewrite validate_None, email_errors. unfold emailAccepted.
  destruct v as [|[|c s]]; cbn [isEmptyInputValue length Nat.eqb].
  - split; [set_solver | by intros (s & [=] & _)].
  - split; [set_solver | by intros (s & [= <-] & ? & _)].
  - destruct (test Validators.EMAIL_REGEXP (c :: s)) eqn:E.
    + split; [intros _; by exists (c :: s) | done].
    + split; [set_solver | intros (s' & [= <-] & _ & ?); congruence].
Qed.

Lemma phone_valid (v : ControlValue) :
  validate phoneValidators v = None ↔ phoneAccepted v.
Proof.
  rewrite validate_None, phone_errors. unfold phoneAccepted.
  destruct v as [|[|c s]]; cbn [isEmptyInputValue length Nat.eqb].
  - split; [by left | done].
  - split; [by right; left | done].
  - destruct (test phonePattern (c :: s)) eqn:E.
    + split; [intros _; right; right; by exists (c :: s) | done].
    + split; [set_solver|].
      intros [[=] | [[=] | (s' & [= <-] & ?)]]. congruence.
Qed.

(** X2.  The name and the message field carry exactly one error key for
    every value they refuse, by its length: [required] for [null] and the
    empty string, [minlength] below the lower bound, [maxlength] above the
    upper bound; they are valid exactly for 3 to 50 and for 10 to 1000 code
    units. *)
Theorem length_fields (v : ControlValue) :
  errorSet (validate nameValidators v) = lengthErrors 3 50 v
  ∧ errorSet (validate messageValidators v) = lengthErrors 10 1000 v
  ∧ (validate nameValidators v = None ↔ lengthWithin 3 50 v)
  ∧ (validate messageValidators v = None ↔ lengthWithin 10 1000 v).
Proof.
  split; [apply length_field; lia|]. split; [apply length_field; lia|].
  split; apply length_field_valid; lia.
Qed.

(** X3.  The email field: [required] alone for [null] and the empty string,
    [email] alone for a non-empty value the pattern refuses, nothing
    otherwise.  The phone field is optional: it is valid for [null], for the
    empty string and for the values its pattern accepts, and carries
    [pattern] alone otherwise. *)
Theorem email_phone_fields (v : ControlValue) :
  errorSet (validate emailValidators v)
  = (if isEmptyInputValue v then {[ "required" ]}
     else if (if v is str s then test Validators.EMAIL_REGEXP s else false)
          then ∅ else {[ "email" ]})
  ∧ (validate emailValidators v = None ↔ emailAccepted v)
  ∧ errorSet (validate phoneValidators v)
    = (if isEmptyInputValue v then ∅
       else if (if v is str s then test phonePattern s else false)
            then ∅ else {[ "pattern" ]})
  ∧ (validate phoneValidators v = None ↔ phoneAccepted v).
Proof.
  split; [apply email_errors|]. split; [apply email_valid|].
  split; [apply phone_errors | apply phone_valid].
Qed.

(** *** The form as a whole *)

Lemma shaped_controls (this : ContactComponent) :
  shaped this →
  ∃ c1 c2 c3 c4,
    controls (contactForm this)
    = [("email", c1); ("name", c2); ("message", c3); ("phone", c4)]
    ∧ validator c1 = emailValidators ∧ validator c2 = nameValidators
    ∧ validator c3 = messageValidators ∧ validator c4 = phoneValidators.
Proof.
  unfold shaped.
  destruct (controls (contactForm this))
    as [|[n1 c1] [|[n2 c2] [|[n3 c3] [|[n4 c4] [|? ?]]]]]; cbn; try done.
  intros [= -> ? -> ? -> ? -> ?]. by exists c1, c2, c3, c4.
Qed.

Lemma fillWith_controls (e n m p : ControlValue) (this : ContactComponent)
    (c1 c2 c3 c4 : FormControl) :
  controls (contactForm this)
  = [("email", c1); ("name", c2); ("message", c3); ("phone", c4)] →
  controls (contactForm (fillWith e n m p this))
  = [("email", setValue e c1); ("name", setValue n c2);
     ("message", setValue m c3); ("phone", setValue p c4)].
Proof.
  intros H. unfold fillWith, setControlValue. cbn [contactForm controls].
  rewrite H. reflexivity.
Qed.

Lemma setValue_errors (v : ControlValue) (c : FormControl) :
  Forall valueOnly (validator c) →
  errors (state (setValue v c)) = validate (validator c) v.
Proof.
  intros Hpure%compose_valueOnly. unfold validate, setValue, updateValueAndValidity.
  cbn [state errors validator value]. by apply Hpure.
Qed.

Lemma setValue_invalid (v : ControlValue) (c : FormControl) :
  Forall valueOnly (validator c) →
  controlInvalid (setValue v c) = false ↔ validate (validator c) v = None.
Proof.
  intros H. unfold controlInvalid. rewrite setValue_errors by done.
  by destruct (validate (validator c) v).
Qed.

Lemma contact_valueOnly (validators : list ValidatorFn) :
  validators ∈ [emailValidators; nameValidators; messageValidators; phoneValidators] →
  Forall valueOnly validators.
Proof.
  intros H. apply (fields_valueOnly toLowerCaseAscii). unfold fields. set_solver.
Qed.

Lemma fillWith_invalid (e n m p : ControlValue) (this : ContactComponent) :
  shaped this →
  invalid (contactForm (fillWith e n m p this)) = false
  ↔ emailAccepted e ∧ lengthWithin 3 50 n ∧ lengthWithin 10 1000 m ∧ phoneAccepted p.
Proof.
  intros (c1 & c2 & c3 & c4 & Hc & H1 & H2 & H3 & H4)%shaped_controls.
  unfold invalid. rewrite (fillWith_controls _ _ _ _ _ _ _ _ _ Hc).
  cbn [existsb snd]. rewrite !orb_false_iff.
  rewrite !setValue_invalid by (apply contact_valueOnly; set_solver).
  rewrite H1, H2, H3, H4.
  unfold nameValidators, messageValidators.
  rewrite email_valid, phone_valid, !length_field_valid by lia. tauto.
Qed.

Lemma shaped_new : shaped newContactComponent.
Proof. reflexivity. Qed.

(** X4.  For a component with the controls of the constructor, whatever was
    typed before: once the four values are set, the submit button is enabled
    exactly when the email is non-empty and matches, the name has 3 to 50
    and the message 10 to 1000 code units, and the phone is empty or
    matches.  [submit()] leaves the world untouched exactly then, and logs
    its warning otherwise; the character counter of a valid form shows 10 to
    1000. *)
Theorem contact_form_accepts (e n m p : ControlValue) (this : ContactComponent) (w : World) :
  shaped this →
  (submitDisabled (fillWith e n m p this) = false ↔ accepted e n m p)
  ∧ (submit (fillWith e n m p this) w = (returned, w) ↔ accepted e n m p)
  ∧ (¬ accepted e n m p →
       submit (fillWith e n m p this) w
       = (returned, {| console := console w ++ [warn "Formulário inválido"] |}))
  ∧ (accepted e n m p →
       (10 ≤ charCount (fillWith e n m p this))%nat
       ∧ (charCount (fillWith e n m p this) ≤ 1000)%nat).
Proof.
  intros Hshape. pose proof (fillWith_invalid e n m p this Hshape) as Hinv.
  fold (accepted e n m p) in Hinv. unfold submitDisabled, submit.
  split; [done|]. split; [|split].
  - destruct (invalid (contactForm (fillWith e n m p this))).
    + split; [|intros H%Hinv; done].
      intros [= H]. apply (f_equal (λ w, length (console w))) in H.
      cbn in H. rewrite length_app in H. cbn in H. lia.
    + split; [intros _; by apply Hinv | done].
  - intros Hno. destruct (invalid (contactForm (fillWith e n m p this))); [done|].
    destruct Hno. by apply Hinv.
  - intros (_ & _ & (s & -> & Hlo & Hhi) & _).
    destruct (shaped_controls this Hshape) as (c1 & c2 & c3 & c4 & Hc & _).
    unfold charCount, message, get.
    rewrite (fillWith_controls _ _ _ _ _ _ _ _ _ Hc). cbn. lia.
Qed.

Lemma contact_form_accepts_witness :
  submit (fillWith (str (js "a@b.com")) (str (js "Ana")) (str (js "uma mensagem")) null
            newContactComponent) {| console := [] |}
  = (returned, {| console := [] |}).
Proof.
  apply (proj1 (proj2 (contact_form_accepts (str (js "a@b.com")) (str (js "Ana"))
                         (str (js "uma mensagem")) null newContactComponent
                         {| console := [] |} shaped_new))).
  split; [|split; [|split]].
  - exists (js "a@b.com"). split; [done|]. split; [done | by vm_compute].
  - exists (js "Ana"). cbn. split; [done|]. lia.
  - exists (js "uma mensagem"). cbn. split; [done|]. lia.
  - by left.
Defined.

(** X5.  Setting the four values keeps the controls and their validators;
    the value of the form, which [submit()] reads, and the four getters then
    give back exactly the values set. *)
Theorem fill_then_read (e n m p : ControlValue) (this : ContactComponent) :
  shaped this →
  shaped (fillWith e n m p this)
  ∧ groupValue (contactForm (fillWith e n m p this))
    = [("email", e); ("name", n); ("message", m); ("phone", p)]
  ∧ (λ c, value (state c)) <$> email (fillWith e n m p this) = Some e
  ∧ (λ c, value (state c)) <$> name (fillWith e n m p this) = Some n
  ∧ (λ c, value (state c)) <$> message (fillWith e n m p this) = Some m
  ∧ (λ c, value (state c)) <$> phone (fillWith e n m p this) = Some p.
Proof.
  intros Hshape.
  destruct (shaped_controls this Hshape) as (c1 & c2 & c3 & c4 & Hc & H1 & H2 & H3 & H4).
  pose proof (fillWith_controls e n m p this _ _ _ _ Hc) as Hf.
  unfold shaped, groupValue, email, name, message, phone, get. rewrite Hf. cbn.
  by rewrite H1, H2, H3, H4.
Qed.

Lemma fill_then_read_witness :
  groupValue (contactForm (fillWith (str (js "x")) null (str []) (str (js "1"))
                             newContactComponent))
  = [("email", str (js "x")); ("name", null); ("message", str []); ("phone", str (js "1"))].
Proof.
  exact (proj1 (proj2 (fill_then_read (str (js "x")) null (str []) (str (js "1"))
                         newContactComponent shaped_new))).
Defined.

(** X6.  Values set earlier leave no trace: setting four values after four
    others gives the component that setting them at once gives, errors
    included. *)
Theorem fill_overwrites (e n m p e' n' m' p' : ControlValue) (this : ContactComponent) :
  shaped this →
  fillWith e' n' m' p' (fillWith e n m p this) = fillWith e' n' m' p' this.
Proof.
  intros Hshape.
  destruct (shaped_controls this Hshape) as (c1 & c2 & c3 & c4 & Hc & H1 & H2 & H3 & H4).
  assert (∀ v v' c, Forall valueOnly (validator c) →
            setValue v' (setValue v c) = setValue v' c) as Hset.
  { intros v v' c Hpure%compose_valueOnly.
    unfold setValue, updateValueAndValidity. cbn [state errors validator value touched dirty].
    do 2 f_equal. by apply Hpure. }
  pose proof (fillWith_controls e n m p this _ _ _ _ Hc) as Hf.
  pose proof (fillWith_controls e' n' m' p' _ _ _ _ _ Hf) as Hff.
  pose proof (fillWith_controls e' n' m' p' this _ _ _ _ Hc) as Hf'.
  rewrite !Hset in Hff
    by (rewrite ?H1, ?H2, ?H3, ?H4; apply contact_valueOnly; set_solver).
  destruct (fillWith e' n' m' p' (fillWith e n m p this)) as [[l1]].
  destruct (fillWith e' n' m' p' this) as [[l2]].
  cbn in Hff, Hf'. by rewrite Hff, Hf'.
Qed.

Lemma fill_overwrites_witness :
  fillWith (str (js "a@b.com")) null null null
    (fillWith null (str (js "Ana")) null (str (js "9")) newContactComponent)
  = fillWith (str (js "a@b.com")) null null null newContactComponent.
Proof. exact (fill_overwrites _ _ _ _ _ _ _ _ newContactComponent shaped_new). Defined.

(** *** The error blocks of the template *)

Lemma hasError_decide (key : string) (c : FormControl) :
  hasError key c = bool_decide (key ∈ errorSet (errors (state c))).
Proof.
  unfold hasError, errorSet. destruct (errors (state c)) as [e|]; cbn; symmetry.
  - destruct (e !! key) eqn:E.
    + apply bool_decide_eq_true_2, elem_of_dom. by eexists.
    + apply bool_decide_eq_false_2. rewrite elem_of_dom, E. by intros [? [=]].
  - apply bool_decide_eq_false_2. set_solver.
Qed.

Lemma touched_block (paragraphs : list (string * string)) (v : ControlValue)
    (c : FormControl) (S : gset string) :
  Forall valueOnly (validator c) →
  errorSet (validate (validator c) v) = S →
  errorBlock paragraphs (Some (markAsTouched (setValue v c)))
  = if bool_decide (S = ∅) then None
    else Some (snd <$> List.filter (λ kp, bool_decide (fst kp ∈ S)) paragraphs).
Proof.
  intros Hpure HS. pose proof (setValue_errors v c Hpure) as Herr.
  unfold errorBlock, controlInvalid.
  change (errors (state (markAsTouched (setValue v c))))
    with (errors (state (setValue v c))).
  change (touched (state (markAsTouched (setValue v c)))) with true.
  rewrite Herr, andb_true_r.
  destruct (validate (validator c) v) as [errs|] eqn:E.
  - rewrite bool_decide_eq_false_2.
    + do 2 f_equal. apply filter_ext. intros kp. rewrite hasError_decide.
      change (errors (state (markAsTouched (setValue v c))))
        with (errors (state (setValue v c))).
      by rewrite Herr, HS.
    + intros HS'. rewrite HS' in HS. rewrite <- E in HS.
      apply validate_None in HS. congruence.
  - rewrite bool_decide_eq_true_2; [done|]. by rewrite <- HS.
Qed.

(** X7.  What the template shows under a field once it has been touched.
    The name field shows exactly one line for every value it refuses.  The
    message field shows one line for a missing or too short value, and an
    empty block for a message of more than 1000 code units, which is
    refused all the same.  Before a field is touched its block is not
    rendered. *)
Theorem error_blocks (v : ControlValue) (c : FormControl) :
  (validator c = nameValidators →
     errorBlock nameParagraphs (Some (markAsTouched (setValue v c)))
     = lengthBlock 3 50 "Nome é obrigatório" "Mínimo 3 caracteres"
         ["Máximo 50 caracteres"] v)
  ∧ (validator c = messageValidators →
       errorBlock messageParagraphs (Some (markAsTouched (setValue v c)))
       = lengthBlock 10 1000 "Mensagem é obrigatória" "Mínimo 10 caracteres" [] v
       ∧ ((if v is str s then (1000 <? length s)%nat else false) = true →
            controlInvalid (markAsTouched (setValue v c)) = true))
  ∧ (touched (state c) = false →
       ∀ paragraphs, errorBlock paragraphs (Some (setValue v c)) = None).
Proof.
  split; [|split].
  - intros Hv.
    rewrite (touched_block _ _ _ (lengthErrors 3 50 v))
      by (rewrite Hv; first [apply contact_valueOnly; set_solver | apply length_field; lia]).
    unfold lengthErrors, lengthBlock. destruct v as [|s]; [by vm_compute|].
    destruct (length s =? 0)%nat; [by vm_compute|].
    destruct (length s <? 3)%nat; [by vm_compute|].
    destruct (50 <? length s)%nat; by vm_compute.
  - intros Hv. split.
    + rewrite (touched_block _ _ _ (lengthErrors 10 1000 v))
        by (rewrite Hv; first [apply contact_valueOnly; set_solver | apply length_field; lia]).
      unfold lengthErrors, lengthBlock. destruct v as [|s]; [by vm_compute|].
      destruct (length s =? 0)%nat; [by vm_compute|].
      destruct (length s <? 10)%nat; [by vm_compute|].
      destruct (1000 <? length s)%nat; by vm_compute.
    + intros Hlong. destruct v as [|s]; [done|].
      unfold controlInvalid.
      change (errors (state (markAsTouched (setValue (str s) c))))
        with (errors (state (setValue (str s) c))).
      rewrite setValue_errors by (rewrite Hv; apply contact_valueOnly; set_solver).
      destruct (validate (validator c) (str s)) eqn:E; [done|].
      rewrite Hv in E. apply (length_field_valid 10 1000) in E as (s' & [= <-] & _ & Hhi);
        [|lia|lia].
      apply Nat.ltb_lt in Hlong. lia.
  - intros Ht paragraphs. unfold errorBlock.
    change (touched (state (setValue v c))) with (touched (state c)).
    by rewrite Ht, andb_false_r.
Qed.

Lemma error_blocks_witness :
  errorBlock messageParagraphs
    (Some (markAsTouched (setValue (str (replicate 1001 97%N))
                            (newFormControl (str []) messageValidators))))
  = Some []
  ∧ errorBlock nameParagraphs
      (Some (markAsTouched (setValue (str (replicate 51 97%N))
                              (newFormControl (str []) nameValidators))))
    = Some ["Máximo 50 caracteres"]
  ∧ errorBlock emailParagraphs (Some (newFormControl (str []) emailValidators)) = None.
Proof.
  split; [|split].
  - exact (proj1 (proj1 (proj2 (error_blocks (str (replicate 1001 97%N))
                                  (newFormControl (str []) messageValidators))) eq_refl)).
  - exact (proj1 (error_blocks (str (replicate 51 97%N))
                    (newFormControl (str []) nameValidators)) eq_refl).
  - exact (proj2 (proj2 (error_blocks (str [])
                           (newFormControl (str []) emailValidators))) eq_refl
             emailParagraphs).
Defined.

(** *** sanitizeInput *)

Lemma removeChars_sublist (chars : string) (s : JsString) :
  removeChars chars s `sublist_of` s.
Proof.
  unfold removeChars. induction s as [|c s IH]; cbn; [constructor|].
  destruct (negb (oneOf chars c)); by constructor.
Qed.

Lemma removeChars_Forall (chars : string) (s : JsString) :
  Forall (λ c, oneOf chars c = false) (removeChars chars s).
Proof.
  unfold removeChars. induction s as [|c s IH]; cbn; [constructor|].
  destruct (oneOf chars c) eqn:E; cbn; [done|]. by constructor.
Qed.

Lemma removeChars_id (chars : string) (s : JsString) :
  Forall (λ c, oneOf chars c = false) s → removeChars chars s = s.
Proof.
  unfold removeChars. induction 1 as [|c s Hc _ IH]; cbn; [done|].
  by rewrite Hc, IH.
Qed.

Lemma removeAll_sublist (w : JsString) (skip : nat) (s : JsString) :
  removeAllIgnoreCase w skip s `sublist_of` s.
Proof.
  revert skip. induction s as [|c s IH]; intros skip; cbn [removeAllIgnoreCase];
    [constructor|].
  destruct skip; [|by constructor].
  destruct (startsWithIgnoreCase (c :: s) w); by constructor.
Qed.

Lemma removeAll_id (w : JsString) (s : JsString) :
  (∀ i, startsWithIgnoreCase (drop i s) w = false) →
  removeAllIgnoreCase w 0 s = s.
Proof.
  induction s as [|c s IH]; intros H; cbn [removeAllIgnoreCase]; [done|].
  pose proof (H 0%nat) as H0. cbn [drop] in H0. rewrite H0.
  f_equal. apply IH. intros i. apply (H (S i)).
Qed.

Lemma trimStart_split (s : JsString) :
  ∃ ws, s = (ws ++ trimStart s)%list ∧ Forall (λ c, isWhiteSpace c = true) ws.
Proof.
  induction s as [|c s (ws & IH & Hws)]; cbn [trimStart]; [by exists []|].
  destruct (isWhiteSpace c) eqn:E.
  - exists (c :: ws). split; [cbn; congruence | by constructor].
  - by exists [].
Qed.

Lemma trimStart_head (s : JsString) (c : N) :
  head (trimStart s) = Some c → isWhiteSpace c = false.
Proof.
  induction s as [|d s IH]; cbn [trimStart]; [done|].
  destruct (isWhiteSpace d) eqn:E; [done|]. cbn. congruence.
Qed.

Lemma trimStart_id (s : JsString) :
  (∀ c, head s = Some c → isWhiteSpace c = false) → trimStart s = s.
Proof. destruct s as [|c s]; cbn; [done|]. intros H. by rewrite (H c). Qed.

Lemma trimStart_app (u v : JsString) (c : N) :
  head v = Some c → isWhiteSpace c = false →
  trimStart (u ++ v)%list = (trimStart u ++ v)%list.
Proof.
  intros Hv Hc. induction u as [|d u IH]; cbn [trimStart app].
  - apply trimStart_id. intros c' Hc'. congruence.
  - by destruct (isWhiteSpace d).
Qed.

Lemma trim_sublist (s : JsString) : trim s `sublist_of` s.
Proof.
  unfold trim.
  destruct (trimStart_split s) as (ws1 & H1 & _).
  destruct (trimStart_split (reverse (trimStart s))) as (ws2 & H2 & _).
  apply (f_equal reverse) in H2. rewrite reverse_involutive, reverse_app in H2.
  rewrite H1 at 2. apply sublist_inserts_l. rewrite H2 at 2.
  by apply sublist_inserts_r.
Qed.

Lemma trim_head (s : JsString) (c : N) :
  head (trim s) = Some c → isWhiteSpace c = false.
Proof.
  unfold trim. rewrite head_reverse.
  destruct (trimStart_split (reverse (trimStart s))) as (ws & H & _).
  intros Hlast.
  assert (last (reverse (trimStart s)) = Some c) as Hl.
  { rewrite H, last_app, Hlast. done. }
  rewrite last_reverse in Hl. by apply trimStart_head in Hl.
Qed.

Lemma trim_last (s : JsString) (c : N) :
  last (trim s) = Some c → isWhiteSpace c = false.
Proof. unfold trim. rewrite last_reverse. apply trimStart_head. Qed.

Lemma trim_id (s : JsString) :
  (∀ c, head s = Some c → isWhiteSpace c = false) →
  (∀ c, last s = Some c → isWhiteSpace c = false) →
  trim s = s.
Proof.
  intros Hh Hl. unfold trim. rewrite (trimStart_id s Hh).
  rewrite trimStart_id; [apply reverse_involutive|].
  intros c. rewrite head_reverse. apply Hl.
Qed.

(** X8.  Whatever the input, the output of [sanitizeInput] is what is left
    of the input after code units are removed (nothing is added, replaced or
    reordered), it holds neither [<] nor [>], and it is no longer than the
    input. *)
Theorem sanitizeInput_removes (input : JsString) :
  sanitizeInput input `sublist_of` input
  ∧ Forall (λ c, c ≠ N_of_ascii "<" ∧ c ≠ N_of_ascii ">") (sanitizeInput input)
  ∧ (length (sanitizeInput input) ≤ length input)%nat.
Proof.
  assert (sanitizeInput input `sublist_of` removeChars "<>" input) as Hsub.
  { unfold sanitizeInput. etrans; [apply trim_sublist | apply removeAll_sublist]. }
  assert (sanitizeInput input `sublist_of` input) as Hsub'
    by (etrans; [exact Hsub | apply removeChars_sublist]).
  split; [done|]. split; [|by apply sublist_length].
  apply Forall_forall. intros c Hc.
  pose proof (removeChars_Forall "<>" input) as Hall.
  rewrite Forall_forall in Hall. specialize (Hall c (elem_of_sublist _ _ _ Hc Hsub)).
  split; intros ->; by vm_compute in Hall.
Qed.

(** X9.  The output of [sanitizeInput] neither starts nor ends with white
    space, so trimming it again changes nothing. *)
Theorem sanitizeInput_trimmed (input : JsString) :
  (∀ c, head (sanitizeInput input) = Some c → isWhiteSpace c = false)
  ∧ (∀ c, last (sanitizeInput input) = Some c → isWhiteSpace c = false)
  ∧ trim (sanitizeInput input) = sanitizeInput input.
Proof.
  assert (∀ c, head (sanitizeInput input) = Some c → isWhiteSpace c = false) as Hh
    by (intros c; apply trim_head).
  assert (∀ c, last (sanitizeInput input) = Some c → isWhiteSpace c = false) as Hl
    by (intros c; apply trim_last).
  split; [done|]. split; [done|]. by apply trim_id.
Qed.

Lemma sanitizeInput_trimmed_witness :
  isWhiteSpace (N_of_ascii "b") = false
  ∧ sanitizeInput (js "  <b>ola</b> ") = js "bola/b".
Proof.
  split; [|reflexivity].
  apply (proj1 (sanitizeInput_trimmed (js "  <b>ola</b> "))). reflexivity.
Defined.

(** X10.  An input without [<] and [>], without an occurrence of
    [javascript:] in any mix of cases, and without white space at its ends
    comes back unchanged. *)
Theorem sanitizeInput_clean (input : JsString) :
  Forall (λ c, oneOf "<>" c = false) input →
  (∀ i, startsWithIgnoreCase (drop i input) (js "javascript:") = false) →
  (∀ c, head input = Some c → isWhiteSpace c = false) →
  (∀ c, last input = Some c → isWhiteSpace c = false) →
  sanitizeInput input = input.
Proof.
  intros Hangle Hjs Hh Hl. unfold sanitizeInput.
  rewrite removeChars_id, removeAll_id by done. by apply trim_id.
Qed.

Lemma sanitizeInput_clean_witness : sanitizeInput (js "ola, tudo bem?") = js "ola, tudo bem?".
Proof.
  apply sanitizeInput_clean.
  - by vm_compute; repeat constructor.
  - intros i. do 15 (destruct i as [|i]; [reflexivity|]). by rewrite drop_ge by (cbn; lia).
  - by intros c [= <-].
  - by intros c [= <-].
Defined.

Lemma nested_removed (rest : JsString) :
  removeAllIgnoreCase (js "javascript:") 0 (js "javajavascript:script:" ++ rest)%list
  = (js "javascript:" ++ removeAllIgnoreCase (js "javascript:") 0 rest)%list.
Proof. reflexivity. Qed.

(** X11.  The removal of [javascript:] is one pass: where the word is
    nested inside itself, removing the inner occurrence leaves the outer one.
    Whatever follows, an input that starts with [javajavascript:script:]
    gives an output that starts with [javascript:]. *)
Theorem sanitizeInput_nested (rest : JsString) :
  ∃ rest', sanitizeInput (js "javajavascript:script:" ++ rest)%list
           = (js "javascript:" ++ rest')%list.
Proof.
  unfold sanitizeInput, removeChars. rewrite List.filter_app.
  change (List.filter _ (js "javajavascript:script:")) with (js "javajavascript:script:").
  rewrite nested_removed. unfold trim.
  rewrite (trimStart_id (js "javascript:" ++ _)%list) by (by intros c [= <-]).
  rewrite reverse_app.
  rewrite (trimStart_app _ (reverse (js "javascript:")) (N_of_ascii ":")) by done.
  rewrite reverse_app, reverse_involutive. by eexists.
Qed.

(** *** More on the banned words *)

Lemma firstBanned_app (toLowerCase : JsString → JsString) (text word : JsString)
    (words more : list JsString) :
  firstBanned toLowerCase text words = Some word →
  firstBanned toLowerCase text (words ++ more) = Some word.
Proof.
  induction words as [|w words IH]; cbn [firstBanned app]; [done|].
  by destruct (includes text (toLowerCase w)).
Qed.

Lemma firstBanned_subseteq (toLowerCase : JsString → JsString) (text : JsString)
    (words all : list JsString) :
  words ⊆ all →
  is_Some (firstBanned toLowerCase text words) →
  is_Some (firstBanned toLowerCase text all).
Proof.
  intros Hsub [word Hw].
  pose proof (firstBanned_spec toLowerCase text words) as H. rewrite Hw in H.
  destruct H as (before & after & -> & Hocc & _).
  pose proof (firstBanned_spec toLowerCase text all) as H'.
  destruct (firstBanned toLowerCase text all); [by eexists|].
  destruct (H' word); [|done]. apply Hsub. set_solver.
Qed.

(** X13.  Words added behind the list never change the answer of the
    banned-words validator on a value it already refuses, and a value
    refused under one list of words is refused under every list that holds
    those words, in whatever order. *)
Theorem bannedWords_monotone (toLowerCase : JsString → JsString)
    (words : list JsString) (control : AbstractControl) :
  (∀ more e, bannedWordsValidator toLowerCase words control = Some e →
     bannedWordsValidator toLowerCase (words ++ more) control = Some e)
  ∧ (∀ all, words ⊆ all →
       is_Some (bannedWordsValidator toLowerCase words control) →
       is_Some (bannedWordsValidator toLowerCase all control)).
Proof.
  unfold bannedWordsValidator. split.
  - intros more e. destruct (value control) as [|[|c s]]; [done|done|]. cbv zeta.
    destruct (firstBanned toLowerCase (toLowerCase (c :: s)) words) as [word|] eqn:E;
      [|done].
    by rewrite (firstBanned_app _ _ _ _ more E).
  - intros all Hsub. destruct (value control) as [|[|c s]]; [done|done|]. cbv zeta.
    pose proof (firstBanned_subseteq toLowerCase (toLowerCase (c :: s)) words all Hsub) as H.
    destruct (firstBanned toLowerCase (toLowerCase (c :: s)) words) as [word|];
      [|by intros [? [=]]].
    intros _. destruct H as [word' ->]; by eexists.
Qed.

Lemma bannedWords_monotone_witness :
  bannedWordsValidator toLowerCaseAscii ([js "spam"] ++ [js "no"])
    {| value := str (js "No SPAM"); touched := false; dirty := false; errors := None |}
  = Some {[ "bannedWord" := wordInfo (js "spam") ]}.
Proof.
  apply (proj1 (bannedWords_monotone toLowerCaseAscii [js "spam"]
                  {| value := str (js "No SPAM"); touched := false; dirty := false;
                     errors := None |})).
  reflexivity.
Defined.

(** X14.  The message field of the usage example carries at most one error
    key: [required] for [null] and the empty string, [bannedWord] for a
    non-empty value whose lowercased form holds the lowercased [spam] or
    [curse], nothing otherwise. *)
Theorem banned_message_field (toLowerCase : JsString → JsString) (v : ControlValue) :
  errorSet (validate (bannedMessageValidators toLowerCase) v)
  = if isEmptyInputValue v then {[ "required" ]}
    else if (if v is str s
             then includes (toLowerCase s) (toLowerCase (js "spam"))
                  || includes (toLowerCase s) (toLowerCase (js "curse"))
             else false)
         then {[ "bannedWord" ]} else ∅.
Proof.
  destruct (validate_unfold (bannedMessageValidators toLowerCase) v) as (control & Hv & ->).
  rewrite errorSet_compose. unfold bannedMessageValidators. cbn [fmap list_fmap].
  rewrite !union_list_cons, union_list_nil, required_empty.
  unfold bannedWordsValidator. rewrite Hv.
  destruct v as [|[|c s]]; cbn [isEmptyInputValue length Nat.eqb]; [keys|keys|].
  cbv zeta. cbn [firstBanned].
  destruct (includes (toLowerCase (c :: s)) (toLowerCase (js "spam"))); [keys|].
  destruct (includes (toLowerCase (c :: s)) (toLowerCase (js "curse"))); keys.
Qed.

Lemma includes_nil (s : JsString) : includes s [] = true.
Proof. by destruct s. Qed.

(** X15.  An empty string among the banned words makes the validator refuse
    every non-empty value (the empty string lowercases to itself and occurs
    in every string). *)
Theorem bannedWords_empty_word (toLowerCase : JsString → JsString)
    (words : list JsString) (control : AbstractControl) (s : JsString) :
  toLowerCase [] = [] → [] ∈ words → value control = str s → s ≠ [] →
  is_Some (bannedWordsValidator toLowerCase words control).
Proof.
  intros Hlow Hin Hv Hs. unfold bannedWordsValidator. rewrite Hv.
  destruct s as [|c s]; [done|]. cbv zeta.
  pose proof (firstBanned_spec toLowerCase (toLowerCase (c :: s)) words) as H.
  destruct (firstBanned toLowerCase (toLowerCase (c :: s)) words); [by eexists|].
  destruct (H [] Hin). rewrite Hlow. apply includes_spec, includes_nil.
Qed.

Lemma bannedWords_empty_word_witness :
  is_Some (bannedWordsValidator toLowerCaseAscii [js "spam"; []]
             {| value := str (js "bom dia"); touched := false; dirty := false;
                errors := None |}).
Proof.
  apply (bannedWords_empty_word toLowerCaseAscii [js "spam"; []] _ (js "bom dia"));
    [reflexivity | set_solver | reflexivity | done].
Defined.

(** *** The template and the fields it leaves out *)

Lemma touchAll_controls (this : ContactComponent) (c1 c2 c3 c4 : FormControl) :
  controls (contactForm this)
  = [("email", c1); ("name", c2); ("message", c3); ("phone", c4)] →
  controls (contactForm (touchAll this))
  = [("email", markAsTouched c1); ("name", markAsTouched c2);
     ("message", markAsTouched c3); ("phone", markAsTouched c4)].
Proof.
  intros H. unfold touchAll, touchControl. cbn [contactForm controls].
  rewrite H. reflexivity.
Qed.

(** X16.  The email field once touched: one line, [Email é obrigatório],
    for [null] and the empty string; one line, [Email inválido], for a
    non-empty value the pattern refuses; no block for an accepted value. *)
Theorem email_block (v : ControlValue) (c : FormControl) :
  validator c = emailValidators →
  errorBlock emailParagraphs (Some (markAsTouched (setValue v c))) = emailBlock v.
Proof.
  intros Hv.
  rewrite (touched_block _ _ _ _ ltac:(rewrite Hv; apply contact_valueOnly; set_solver)
             ltac:(rewrite Hv; apply email_errors)).
  unfold emailBlock. destruct (isEmptyInputValue v); [by vm_compute|].
  destruct v as [|s]; [by vm_compute|].
  destruct (test Validators.EMAIL_REGEXP s); by vm_compute.
Qed.

Lemma email_block_witness :
  errorBlock emailParagraphs
    (Some (markAsTouched (setValue (str (js "not-an-email"))
                            (newFormControl (str []) emailValidators))))
  = Some ["Email inválido"].
Proof.
  exact (email_block (str (js "not-an-email"))
           (newFormControl (str []) emailValidators) eq_refl).
Defined.

(** X17.  The template has no error block for the phone field.  With an
    accepted email, name and message and a phone the pattern refuses, the
    submit button is disabled and, every field touched, none of the three
    error blocks is rendered. *)
Theorem phone_refused_silently (e n m p : ControlValue) (this : ContactComponent) :
  shaped this →
  emailAccepted e → lengthWithin 3 50 n → lengthWithin 10 1000 m → ¬ phoneAccepted p →
  submitDisabled (touchAll (fillWith e n m p this)) = true
  ∧ errorBlock emailParagraphs (email (touchAll (fillWith e n m p this))) = None
  ∧ errorBlock nameParagraphs (name (touchAll (fillWith e n m p this))) = None
  ∧ errorBlock messageParagraphs (message (touchAll (fillWith e n m p this))) = None.
Proof.
  intros Hshape He Hn Hm Hp.
  destruct (shaped_controls this Hshape) as (c1 & c2 & c3 & c4 & Hc & H1 & H2 & H3 & H4).
  pose proof (touchAll_controls _ _ _ _ _ (fillWith_controls e n m p this _ _ _ _ Hc)) as Ht.
  unfold submitDisabled, invalid, email, name, message, get. rewrite Ht. cbn [existsb find snd fst String.eqb Ascii.eqb Bool.eqb fmap option_fmap option_map].
  split.
  - assert (controlInvalid (markAsTouched (setValue p c4)) = true) as ->.
    { change (controlInvalid (markAsTouched (setValue p c4)))
        with (controlInvalid (setValue p c4)).
      destruct (controlInvalid (setValue p c4)) eqn:E; [done|].
      apply setValue_invalid in E; [|rewrite H4; apply contact_valueOnly; set_solver].
      rewrite H4 in E. by apply phone_valid in E. }
    by rewrite !orb_true_r.
  - apply email_valid in He. apply (length_field_valid 3 50) in Hn; [|lia|lia].
    apply (length_field_valid 10 1000) in Hm; [|lia|lia].
    assert (∀ ps v c, Forall valueOnly (validator c) → validate (validator c) v = None →
              errorBlock ps (Some (markAsTouched (setValue v c))) = None) as Hnone.
    { intros ps v c Hpure Hv. unfold errorBlock, controlInvalid.
      change (errors (state (markAsTouched (setValue v c))))
        with (errors (state (setValue v c))).
      by rewrite setValue_errors, Hv. }
    repeat split; apply Hnone;
      rewrite ?H1, ?H2, ?H3; first [apply contact_valueOnly; set_solver | done].
Qed.

Lemma phone_refused_silently_witness :
  submitDisabled (touchAll (fillWith (str (js "a@b.com")) (str (js "Ana"))
                              (str (js "uma mensagem")) (str (js "123"))
                              newContactComponent)) = true.
Proof.
  apply (phone_refused_silently (str (js "a@b.com")) (str (js "Ana"))
           (str (js "uma mensagem")) (str (js "123")) newContactComponent shaped_new).
  - exists (js "a@b.com"). split; [done|]. split; [done | by vm_compute].
  - exists (js "Ana"). cbn. split; [done|]. lia.
  - exists (js "uma mensagem"). cbn. split; [done|]. lia.
  - intros [[=] | [[=] | (s & [= <-] & H)]]. by vm_compute in H.
Defined.

(** *** The two contact forms *)

Lemma lang_star_chr (p : N → bool) (s : JsString) :
  lang (Star (Chr p)) s ↔ Forall (λ c, p c = true) s.
Proof.
  cbn [lang]. split.
  - induction 1 as [|s1 s2 (c & -> & Hc) _ IH]; [constructor|]. by constructor.
  - induction 1 as [|c s Hc _ IH]; [constructor|].
    apply (star_app _ [c] s); [by exists c | done].
Qed.

Lemma strict_phone_lax (s : JsString) :
  test phonePattern s = true → test Security.phonePattern s = true.
Proof.
  intros Hall%phone_alphabet.
  unfold test. rewrite matches_spec. cbn [Security.phonePattern regex].
  apply lang_star_chr. eapply Forall_impl; [exact Hall|].
  intros c [-> | [-> | ->]]; by cbn.
Qed.

Lemma min_field_valid (lo : nat) (v : ControlValue) :
  (1 ≤ lo)%nat →
  (∃ s, v = str s ∧ (lo ≤ length s)%nat) →
  validate [Validators.required; Validators.minLength lo] v = None.
Proof.
  intros Hlo (s & -> & Hlen). apply validate_None.
  destruct (validate_unfold [Validators.required; Validators.minLength lo] (str s))
    as (control & Hv & ->).
  rewrite errorSet_compose. cbn [fmap list_fmap].
  rewrite !union_list_cons, union_list_nil, required_empty.
  unfold Validators.minLength. rewrite Hv. cbn [isEmptyInputValue].
  destruct (Nat.eqb_spec (length s) 0); [lia|].
  destruct (Nat.ltb_spec (length s) lo); [lia|]. keys.
Qed.

(** X18.  The form of the security guide is the laxer of the two: an email,
    message and phone that the form of the validation guide accepts leave it
    valid as well, and every telephone number the stricter pattern accepts
    the wider pattern accepts. *)
Theorem security_form_laxer (e n m p : ControlValue) (s : JsString) :
  (accepted e n m p →
     invalid (contactForm (Security.fillWith e m p Security.newContactComponent)) = false)
  ∧ (test phonePattern s = true → test Security.phonePattern s = true).
Proof.
  split; [|apply strict_phone_lax].
  intros (He & _ & (sm & -> & Hlo & _) & Hp).
  unfold invalid. cbn [Security.fillWith Security.newContactComponent contactForm].
  change (controls _) with
    [("email", setValue e (newFormControl (str []) Security.emailValidators));
     ("message", setValue (str sm) (newFormControl (str []) Security.messageValidators));
     ("phone", setValue p (newFormControl (str []) Security.phoneValidators))].
  cbn [existsb snd]. rewrite !orb_false_iff.
  rewrite !setValue_invalid
    by (repeat constructor;
        auto using required_valueOnly, email_valueOnly, minLength_valueOnly,
          pattern_valueOnly).
  cbn [validator newFormControl updateValueAndValidity].
  split; [|split; [|split; [|done]]].
  - by apply email_valid.
  - apply min_field_valid; [lia|]. by exists sm.
  - apply validate_None.
    destruct (validate_unfold Security.phoneValidators p) as (control & Hv & ->).
    rewrite errorSet_compose. unfold Security.phoneValidators. cbn [fmap list_fmap].
    rewrite !union_list_cons, union_list_nil. unfold Validators.pattern. rewrite Hv.
    destruct Hp as [-> | [-> | (sp & -> & Hsp)]]; [keys|keys|].
    destruct (isEmptyInputValue (str sp)); [keys|].
    rewrite (strict_phone_lax sp Hsp). keys.
Qed.

Lemma security_form_laxer_witness :
  invalid (contactForm (Security.fillWith (str (js "a@b.com")) (str (js "uma mensagem"))
                          (str (js "1234-5678")) Security.newContactComponent)) = false
  ∧ test Security.phonePattern (js "1234-5678") = true.
Proof.
  split.
  - apply (proj1 (security_form_laxer (str (js "a@b.com")) (str (js "Ana"))
                    (str (js "uma mensagem")) (str (js "1234-5678")) [])).
    split; [|split; [|split]].
    + exists (js "a@b.com"). split; [done|]. split; [done | by vm_compute].
    + exists (js "Ana"). cbn. split; [done|]. lia.
    + exists (js "uma mensagem"). cbn. split; [done|]. lia.
    + right. right. exists (js "1234-5678"). split; [done | by vm_compute].
  - apply (proj2 (security_form_laxer null null null null (js "1234-5678"))).
    by vm_compute.
Defined.

End FormsSpec.
